(** * Chatbot flow builder: the graph engine of [App.tsx] and [validators.ts]

    A shallow embedding of the React component [FlowBuilder] (src/App.tsx)
    and of the helper [validateFlow] (src/utils/validators.ts).  The hooks
    state of the component is a record, every callback is a function from
    state to state, and what the callbacks read from the environment
    ([Date.now()], [Math.random()], the drop event) is an argument. *)

From Stdlib Require Import QArith_base Ascii.
From stdpp Require Import base numbers list strings pretty gmap relations
  sorting.

Local Open Scope Z_scope.

(** ** Data model *)

(** [XYPosition] of reactflow: two JS numbers.  Every finite double is a
    rational, and the engine never computes with a position again. *)
Module XYPosition.
Record t := mk { x : Q; y : Q }.
End XYPosition.

(** [interface TextNodeData { label: string; level: number }].  The level
    is a counter that starts at 1 and grows by 1 with every added node.  It
    is an integer here: doubles hold these values exactly up to 2^53, a
    bound that takes 2^53 added nodes to reach. *)
Module TextNodeData.
Record t := mk { label : string; level : Z }.
End TextNodeData.

(** [Node<TextNodeData>] of reactflow, with the fields that [App.tsx] sets. *)
Module Node.
Record t := mk {
  id : string;
  type : string;
  position : XYPosition.t;
  data : TextNodeData.t
}.
End Node.

(** [Edge] of reactflow.  The handles of [TextNode] carry no id, so
    [sourceHandle] and [targetHandle] are always null and are left out. *)
Module Edge.
Record t := mk { id : string; source : string; target : string }.
End Edge.

(** [Connection] of reactflow: [source] and [target] are [string | null]. *)
Module Connection.
Record t := mk { source : option string; target : option string }.
End Connection.

(** The hooks state of [FlowBuilder] (App.tsx lines 29-34). *)
Record FlowState := mkState {
  nodes : list Node.t;
  edges : list Edge.t;
  selectedNodeId : option string;
  error : option string;
  level : Z;
  successMessage : option string
}.

(** The state of the first render: the initial values of the hooks. *)
Definition initialState : FlowState :=
  {| nodes := []; edges := []; selectedNodeId := None; error := None;
     level := 1; successMessage := None |}.

(** The setters returned by the hooks. *)
Definition setNodes (nds : list Node.t) (s : FlowState) : FlowState :=
  {| nodes := nds; edges := edges s; selectedNodeId := selectedNodeId s;
     error := error s; level := level s; successMessage := successMessage s |}.

Definition setEdges (eds : list Edge.t) (s : FlowState) : FlowState :=
  {| nodes := nodes s; edges := eds; selectedNodeId := selectedNodeId s;
     error := error s; level := level s; successMessage := successMessage s |}.

Definition setSelectedNodeId (sel : option string) (s : FlowState) : FlowState :=
  {| nodes := nodes s; edges := edges s; selectedNodeId := sel;
     error := error s; level := level s; successMessage := successMessage s |}.

Definition setError (e : option string) (s : FlowState) : FlowState :=
  {| nodes := nodes s; edges := edges s; selectedNodeId := selectedNodeId s;
     error := e; level := level s; successMessage := successMessage s |}.

Definition setLevel (l : Z) (s : FlowState) : FlowState :=
  {| nodes := nodes s; edges := edges s; selectedNodeId := selectedNodeId s;
     error := error s; level := l; successMessage := successMessage s |}.

Definition setSuccessMessage (m : option string) (s : FlowState) : FlowState :=
  {| nodes := nodes s; edges := edges s; selectedNodeId := selectedNodeId s;
     error := error s; level := level s; successMessage := m |}.

(** ** Adding nodes *)

(** The template literal [`${Date.now()}-${level}`]: both numbers are
    integers, printed in decimal. *)
Definition nodeId (now lvl : Z) : string :=
  pretty now +:+ "-" +:+ pretty lvl.

(** [onAddTextNode] (App.tsx lines 38-55).  [now] is the value of
    [Date.now()] and [rnd200] the value of [Math.random() * 200]. *)
Definition onAddTextNode (now : Z) (rnd200 : Q) (label : string)
    (s : FlowState) : FlowState :=
  let nodeLevel := level s in
  let newNode :=
    Node.mk (nodeId now nodeLevel) "textNode"
      (XYPosition.mk (inject_Z (nodeLevel * 300)) rnd200)
      (TextNodeData.mk label nodeLevel) in
  setLevel (level s + 1) (setNodes (nodes s ++ [newNode]) s).

(** [onDrop] (App.tsx lines 79-107).  [type] is what the drag event's data
    transfer holds, [position] the drop position relative to the canvas. *)
Definition onDrop (type : string) (now : Z) (position : XYPosition.t)
    (s : FlowState) : FlowState :=
  if decide (type = "") then s
  else
    let newNode :=
      Node.mk (nodeId now (level s)) type position
        (TextNodeData.mk "New Text Message" (level s)) in
    setLevel (level s + 1) (setNodes (nodes s ++ [newNode]) s).

(** ** Connecting nodes *)

(** Modelled from the spec: [addEdge] is imported from the reactflow package
    and its code is not under src/.  The spec says that a connect which is
    not rejected "creates the edge"; the stored edge keeps the connection's
    source and target and goes to the end of the edge list.  As in reactflow,
    a connection with a missing endpoint, or one that is stored already, adds
    nothing. *)
Definition addEdge (edgeParams : Connection.t) (eds : list Edge.t)
    : list Edge.t :=
  match Connection.source edgeParams, Connection.target edgeParams with
  | Some src, Some tgt =>
      if decide (src = "" ∨ tgt = "") then eds
      else
        let edge :=
          Edge.mk ("reactflow__edge-" +:+ src +:+ "-" +:+ tgt) src tgt in
        if existsb (λ el, bool_decide (Edge.source el = src
                                       ∧ Edge.target el = tgt)) eds
        then eds
        else eds ++ [edge]
  | _, _ => eds
  end.

Definition duplicateOutgoingMessage : string :=
  "Only one outgoing connection allowed per node.".

(** [onConnect] (App.tsx lines 59-75).  The timer it starts on the error
    path is the event [errorTimeout] below. *)
Definition onConnect (params : Connection.t) (s : FlowState) : FlowState :=
  let sourceAlreadyConnected :=
    existsb (λ e, bool_decide (Some (Edge.source e) = Connection.source params))
      (edges s) in
  if negb sourceAlreadyConnected
  then setEdges (addEdge params (edges s)) s
  else setError (Some duplicateOutgoingMessage) s.

(** The callbacks given to [setTimeout]: they run 3000 ms after the message
    was set; here they are events that may occur at any later point. *)
Definition errorTimeout (s : FlowState) : FlowState := setError None s.
Definition successTimeout (s : FlowState) : FlowState :=
  setSuccessMessage None s.

(** ** Selecting and editing *)

(** [onNodeClick] (App.tsx lines 111-114), and the "Back" button. *)
Definition onNodeClick (node : Node.t) (s : FlowState) : FlowState :=
  setSelectedNodeId (Some (Node.id node)) s.

Definition onBack (s : FlowState) : FlowState := setSelectedNodeId None s.

(** [updateNodeLabel] (App.tsx lines 118-130): the spread copies every
    field of the node and of its data, and then sets [label]. *)
Definition updateNodeLabel (label : string) (s : FlowState) : FlowState :=
  setNodes
    (map (λ node,
       if decide (Some (Node.id node) = selectedNodeId s)
       then Node.mk (Node.id node) (Node.type node) (Node.position node)
              (TextNodeData.mk label (TextNodeData.level (Node.data node)))
       else node)
     (nodes s)) s.

(** ** Reset *)

(** [handleReset] (App.tsx lines 134-152). *)
Definition handleReset (s : FlowState) : FlowState :=
  setSuccessMessage None
    (setError None
      (setSelectedNodeId None
        (setLevel 1 (setEdges [] (setNodes [] s))))).

(** ** Save: the validator *)

(** The adjacency list of [handleSave] (App.tsx lines 166-170): a
    [Map<string, string[]>] filled edge by edge; [push] appends to the array
    stored under the source. *)
Definition graphAdd (graph : gmap string (list string)) (edge : Edge.t)
    : gmap string (list string) :=
  let graph1 :=
    if decide (is_Some (graph !! Edge.source edge)) then graph
    else <[Edge.source edge := []]> graph in
  alter (λ targets, targets ++ [Edge.target edge]) (Edge.source edge) graph1.

Definition buildGraph (eds : list Edge.t) : gmap string (list string) :=
  foldl graphAdd ∅ eds.

(** One turn of the [while] loop (App.tsx lines 186-193): [shift] takes the
    head of the queue, [visited.add] marks it, and every neighbour that is
    not marked goes to the end of the queue.  The loop is run for at most
    [fuel] turns and gives back the set and the queue it stopped with. *)
Fixpoint bfs (fuel : nat) (graph : gmap string (list string))
    (visited : gset string) (queue : list string)
    : gset string * list string :=
  match fuel, queue with
  | S fuel', current :: rest =>
      let visited' := visited ∪ {[current]} in
      let neighbors := default [] (graph !! current) in
      bfs fuel' graph visited'
        (rest ++ filter (λ n, n ∉ visited') neighbors)
  | _, _ => (visited, queue)
  end.

(** A number of turns that is enough for the loop to empty its queue
    ([bfs_fuel_enough] below).  With [k] one more than the number of edges
    and [u] nodes not yet marked, an entry of the queue that is not marked
    accounts for at most [queueWeight k u] turns, and a marked one for at
    most [1 + k * queueWeight k u]. *)
Fixpoint queueWeight (k u : nat) : nat :=
  match u with
  | O => 1
  | S u' => 1 + k * (1 + k * queueWeight k u')
  end%nat.

Definition bfsUniverse (rootNode : string) (eds : list Edge.t) : gset string :=
  {[rootNode]} ∪ list_to_set (map Edge.target eds).

Definition bfsFuel (rootNode : string) (eds : list Edge.t) : nat :=
  queueWeight (S (length eds)) (size (bfsUniverse rootNode eds)).

Definition noRootMessage : string := "Cannot save Flow: No root node found.".

Definition disconnectedMessage (n : nat) : string :=
  "Cannot save Flow: " +:+ pretty n
    +:+ " node(s) are not connected to the main flow.".

Definition savedMessage : string := "Flow saved successfully!".

(** The root that [handleSave] looks for (App.tsx lines 173-175). *)
Definition findRoot (nds : list Node.t) (eds : list Edge.t) : option string :=
  let allNodeIds := map Node.id nds in
  let targetNodeIds := map Edge.target eds in
  find (λ id, negb (bool_decide (id ∈ targetNodeIds))) allNodeIds.

(** The set [visited] when the loop of [handleSave] ends
    (App.tsx lines 184-193). *)
Definition visitedFrom (rootNode : string) (eds : list Edge.t) : gset string :=
  (bfs (bfsFuel rootNode eds) (buildGraph eds) ∅ [rootNode]).1.

(** [disconnectedNodes] (App.tsx line 196). *)
Definition disconnectedNodes (rootNode : string) (nds : list Node.t)
    (eds : list Edge.t) : list string :=
  filter (λ id, id ∉ visitedFrom rootNode eds) (map Node.id nds).

(** [handleSave] (App.tsx lines 156-208).  [!rootNode] holds when [find]
    gave [undefined] and also when it gave the empty string.  The timers of
    the success paths are the event [successTimeout]. *)
Definition handleSave (s : FlowState) : FlowState :=
  if bool_decide (length (nodes s) ≤ 1)%nat then
    setSuccessMessage (Some savedMessage) (setError None s)
  else
    match findRoot (nodes s) (edges s) with
    | None => setError (Some noRootMessage) s
    | Some rootNode =>
        if decide (rootNode = "") then setError (Some noRootMessage) s
        else
          let disconnected := disconnectedNodes rootNode (nodes s) (edges s) in
          if bool_decide (0 < length disconnected)%nat then
            setError (Some (disconnectedMessage (length disconnected))) s
          else
            setSuccessMessage (Some savedMessage) (setError None s)
    end.

(** What the user sees of a save: the two messages. *)
Definition saveResult (s : FlowState) : option string * option string :=
  (error (handleSave s), successMessage (handleSave s)).

(** ** [validateFlow] (src/utils/validators.ts) *)

Definition validateFlow (nds : list Node.t) (eds : list Edge.t) : bool :=
  let targetNodeIds : gset string := list_to_set (map Edge.target eds) in
  let isolatedNodes := filter (λ n, Node.id n ∉ targetNodeIds) nds in
  bool_decide (length isolatedNodes ≤ 1)%nat.

(** ** Removal *)

(** Modelled from the spec: nodes and edges are removed by the change
    handlers [onNodesChange] and [onEdgesChange] that reactflow's
    [useNodesState] and [useEdgesState] return; their code is not under src/.
    Following the spec, [removeNode] drops the node and every edge of which it is
    the source or the target, and an identity that is absent leaves the
    stores as they are. *)
Definition removeNode (id : string) (s : FlowState) : FlowState :=
  setEdges
    (filter (λ e, Edge.source e ≠ id ∧ Edge.target e ≠ id) (edges s))
    (setNodes (filter (λ n, Node.id n ≠ id) (nodes s)) s).

(** Modelled from the spec: see [removeNode]; [removeEdge] drops the edge
    from [sourceId] to [targetId]. *)
Definition removeEdge (sourceId targetId : string) (s : FlowState)
    : FlowState :=
  setEdges
    (filter (λ e, ¬ (Edge.source e = sourceId ∧ Edge.target e = targetId))
       (edges s)) s.

(** ** Sessions *)

(** What can happen to the component, one constructor per callback. *)
Inductive Op :=
  | AddTextNode (now : Z) (rnd200 : Q) (label : string)
  | Drop (type : string) (now : Z) (position : XYPosition.t)
  | Connect (params : Connection.t)
  | NodeClick (node : Node.t)
  | Back
  | UpdateNodeLabel (label : string)
  | Reset
  | Save
  | ErrorTimeout
  | SuccessTimeout
  | RemoveNode (id : string)
  | RemoveEdge (sourceId targetId : string).

Definition step (s : FlowState) (op : Op) : FlowState :=
  match op with
  | AddTextNode now rnd200 label => onAddTextNode now rnd200 label s
  | Drop type now position => onDrop type now position s
  | Connect params => onConnect params s
  | NodeClick node => onNodeClick node s
  | Back => onBack s
  | UpdateNodeLabel label => updateNodeLabel label s
  | Reset => handleReset s
  | Save => handleSave s
  | ErrorTimeout => errorTimeout s
  | SuccessTimeout => successTimeout s
  | RemoveNode id => removeNode id s
  | RemoveEdge sourceId targetId => removeEdge sourceId targetId s
  end.

(** The state after a session: the operations applied one after the other,
    starting from the first render. *)
Definition run (ops : list Op) : FlowState := foldl step initialState ops.

(** ** What a session keeps true *)

Definition nodeLevel (n : Node.t) : Z := TextNodeData.level (Node.data n).

(** The level counter is positive; every stored node got its identity from
    [nodeId] at its own level, which is below the counter; no two stored
    nodes have the same level; no two stored edges have the same source. *)
Record StoreInv (s : FlowState) : Prop := mkStoreInv {
  inv_level : 1 ≤ level s;
  inv_ids :
    Forall (λ n, (∃ now, Node.id n = nodeId now (nodeLevel n))
                 ∧ 1 ≤ nodeLevel n < level s) (nodes s);
  inv_levels : NoDup (map nodeLevel (nodes s));
  inv_sources : NoDup (map Edge.source (edges s))
}.

(** Does the string hold the character [-]? *)
Fixpoint hasDash (s : string) : bool :=
  match s with
  | EmptyString => false
  | String c s' => if decide (c = "-"%char) then true else hasDash s'
  end.

(** ** Reachability *)

(** A node of the store has no edge that points to it. *)
Definition rootCandidate (eds : list Edge.t) (id : string) : Prop :=
  id ∉ map Edge.target eds.

(** One edge leads from [a] to [b]. *)
Definition edgeStep (eds : list Edge.t) (a b : string) : Prop :=
  ∃ e, e ∈ eds ∧ Edge.source e = a ∧ Edge.target e = b.

(** [x] is reached from [r] along edges, source to target. *)
Definition reachable (eds : list Edge.t) (r x : string) : Prop :=
  rtc (edgeStep eds) r x.

(** The root candidates, in the order of the node store. *)
Definition rootCandidates (nds : list Node.t) (eds : list Edge.t)
    : list string :=
  filter (rootCandidate eds) (map Node.id nds).

(** What the loop of [handleSave] keeps true of the set and the queue:
    what they hold is reachable from the root, the edges that leave the set
    end in the set or in the queue, and the root is in one of them. *)
Definition loopInv (eds : list Edge.t) (rootNode : string)
    (visited : gset string) (queue : list string) : Prop :=
  (∀ x, x ∈ visited ∨ x ∈ queue → reachable eds rootNode x)
  ∧ (∀ x y, x ∈ visited → edgeStep eds x y → y ∈ visited ∨ y ∈ queue)
  ∧ (rootNode ∈ visited ∨ rootNode ∈ queue).

(** The turns that the entries of a queue still account for: see
    [queueWeight]. *)
Definition entryWeight (k : nat) (universe visited : gset string)
    (x : string) : nat :=
  if decide (x ∈ visited)
  then (1 + k * queueWeight k (size (universe ∖ visited)))%nat
  else queueWeight k (size (universe ∖ visited)).

Fixpoint queuePotential (k : nat) (universe visited : gset string)
    (queue : list string) : nat :=
  match queue with
  | [] => O
  | x :: queue' =>
      (entryWeight k universe visited x
       + queuePotential k universe visited queue')%nat
  end.

(** ** The scenarios of the specification *)

Definition scenarioNode (id : string) (lvl : Z) : Node.t :=
  Node.mk id "textNode" (XYPosition.mk (inject_Z (lvl * 300)) 0)
    (TextNodeData.mk id lvl).

Definition scenarioEdge (src tgt : string) : Edge.t :=
  Edge.mk ("reactflow__edge-" +:+ src +:+ "-" +:+ tgt) src tgt.

Definition scenarioState (nds : list Node.t) (eds : list Edge.t) : FlowState :=
  setEdges eds (setNodes nds initialState).

Definition N1 : Node.t := scenarioNode "N1" 1.
Definition N2 : Node.t := scenarioNode "N2" 2.
Definition N3 : Node.t := scenarioNode "N3" 3.
Definition N4 : Node.t := scenarioNode "N4" 4.

Definition scenarioA : FlowState :=
  scenarioState [N1; N2; N3] [scenarioEdge "N1" "N2"; scenarioEdge "N2" "N3"].
Definition scenarioB : FlowState :=
  scenarioState [N1; N2; N3] [scenarioEdge "N1" "N2"].
Definition scenarioC : FlowState :=
  scenarioState [N1; N2] [scenarioEdge "N1" "N2"; scenarioEdge "N2" "N1"].

(** Scenario B with another isolated node. *)
Definition scenarioB4 : FlowState :=
  scenarioState [N1; N2; N4] [scenarioEdge "N1" "N2"].

(** Two root candidates that share one target: every node is a root
    candidate or a target. *)
Definition twoRoots : FlowState :=
  scenarioState [N1; N2; N3] [scenarioEdge "N1" "N3"; scenarioEdge "N2" "N3"].

(** One node, and an edge store that is not empty. *)
Definition loneNode : FlowState :=
  scenarioState [N1] [scenarioEdge "N1" "N1"; scenarioEdge "N4" "N1"].

(** A connection from an identity that no node has. *)
Definition ghostConnection : Connection.t :=
  Connection.mk (Some "N7") (Some "N1").

(** A session that adds two nodes, connects them, and tries a second
    connection from the same source. *)
Definition twoNodeSession : list Op :=
  [AddTextNode 1700000000000 0 "hello"; AddTextNode 1700000000000 0 "bye";
   Connect (Connection.mk (Some "1700000000000-1") (Some "1700000000000-2"))].

Definition secondConnection : Connection.t :=
  Connection.mk (Some "1700000000000-1") (Some "1700000000000-1").

(** ** The settings panel *)

(** [selectedNode] (App.tsx line 210): the first node of the store that has
    the selected identity.  The settings panel is shown when there is one,
    the nodes panel otherwise. *)
Definition selectedNode (s : FlowState) : option Node.t :=
  find (λ n, bool_decide (Some (Node.id n) = selectedNodeId s)) (nodes s).

(** The node that the spread of [updateNodeLabel] builds from [node]. *)
Definition withLabel (label : string) (node : Node.t) : Node.t :=
  Node.mk (Node.id node) (Node.type node) (Node.position node)
    (TextNodeData.mk label (TextNodeData.level (Node.data node))).

(** ** The verdict of a save *)

(** What [handleSave] puts in [error], as a function of the two stores:
    [None] when the flow is saved. *)
Definition saveVerdict (nds : list Node.t) (eds : list Edge.t)
    : option string :=
  if bool_decide (length nds ≤ 1)%nat then None
  else
    match findRoot nds eds with
    | None => Some noRootMessage
    | Some rootNode =>
        if decide (rootNode = "") then Some noRootMessage
        else
          let disconnected := disconnectedNodes rootNode nds eds in
          if bool_decide (0 < length disconnected)%nat
          then Some (disconnectedMessage (length disconnected))
          else None
    end.

(** The two ends of an edge. *)
Definition endpoints (e : Edge.t) : string * string :=
  (Edge.source e, Edge.target e).

(** Scenario A after a click on its first node. *)
Definition clickedA : FlowState := onNodeClick N1 scenarioA.

(** The same, with the edges stored in the other order and one of them
    twice. *)
Definition shuffledA : FlowState :=
  setEdges
    [scenarioEdge "N2" "N3"; scenarioEdge "N1" "N2"; scenarioEdge "N2" "N3"]
    clickedA.

(** Scenario A with fewer nodes and more edges. *)
Definition prunedA : FlowState :=
  scenarioState [N1; N3]
    [scenarioEdge "N1" "N2"; scenarioEdge "N2" "N3"; scenarioEdge "N4" "N3"].

(** ** Store order *)

(** The levels of the stored nodes grow strictly along the store. *)
Definition levelsSorted (nds : list Node.t) : Prop :=
  StronglySorted (λ a b, nodeLevel a < nodeLevel b) nds.

(** ** Linear flows *)

(** The pairs of neighbours of a list: first and second, second and
    third, and so on. *)
Definition consecutive (ids : list string) : list (string * string) :=
  zip ids (tail ids).

(** * Properties *)

(** ** The setters *)

Lemma handleSave_stores s :
  nodes (handleSave s) = nodes s ∧ edges (handleSave s) = edges s
  ∧ level (handleSave s) = level s
  ∧ selectedNodeId (handleSave s) = selectedNodeId s.
Proof.
  unfold handleSave.
  repeat (case_bool_decide || case_match || case_decide); done.
Qed.

(** ** Lists *)

Lemma filter_length_le_1 {A} (P : A → Prop) `{!∀ x, Decision (P x)}
    (l : list A) :
  (length (filter P l) ≤ 1)%nat ↔
  ∀ i j x y, l !! i = Some x → l !! j = Some y → P x → P y → i = j.
Proof.
  induction l as [|a l IH].
  - split; [intros _ i j x y Hi; by rewrite lookup_nil in Hi | simpl; lia].
  - rewrite filter_cons. destruct (decide (P a)) as [Ha|Ha]; simpl.
    + split.
      * intros Hlen i j x y Hi Hj Hx Hy.
        assert (filter P l = []) as Hnil
          by (destruct (filter P l); [done | simpl in Hlen; lia]).
        assert (∀ k z, l !! k = Some z → P z → False) as Hno.
        { intros k z Hk Hz.
          assert (z ∈ filter P l) as Hin
            by (apply list_elem_of_filter; split;
                [done | by eapply list_elem_of_lookup_2]).
          rewrite Hnil in Hin. by apply not_elem_of_nil in Hin. }
        destruct i as [|i], j as [|j]; simpl in *; try done;
          exfalso; eauto.
      * intros Huniq.
        destruct (filter P l) as [|z t] eqn:Hf; [simpl; lia | exfalso].
        assert (z ∈ filter P l) as Hin by (rewrite Hf; left).
        apply list_elem_of_filter in Hin as [Hz Hin].
        apply list_elem_of_lookup_1 in Hin as [k Hk].
        by specialize (Huniq 0%nat (S k) a z eq_refl Hk Ha Hz).
    + rewrite IH. split.
      * intros Huniq i j x y Hi Hj Hx Hy.
        destruct i as [|i], j as [|j]; simpl in *; simplify_eq; try done.
        f_equal. eauto.
      * intros Huniq i j x y Hi Hj Hx Hy.
        by specialize (Huniq (S i) (S j) x y Hi Hj Hx Hy) as [= ->].
Qed.

(** ** Save with at most one node *)

(** C4: when the node store holds no node or one node, [handleSave] reports
    success (no error, the success message), whatever the edge store
    holds, and leaves both stores as they are. *)
Theorem handleSave_at_most_one_node (s : FlowState) :
  (length (nodes s) ≤ 1)%nat →
  error (handleSave s) = None
  ∧ successMessage (handleSave s) = Some savedMessage
  ∧ nodes (handleSave s) = nodes s
  ∧ edges (handleSave s) = edges s.
Proof.
  intros Hlen. unfold handleSave.
  rewrite bool_decide_eq_true_2 by done. done.
Qed.

Lemma handleSave_at_most_one_node_witness :
  edges loneNode ≠ []
  ∧ error (handleSave loneNode) = None
  ∧ successMessage (handleSave loneNode) = Some savedMessage
  ∧ nodes (handleSave loneNode) = nodes loneNode
  ∧ edges (handleSave loneNode) = edges loneNode.
Proof.
  split; [done |].
  apply (handleSave_at_most_one_node loneNode). simpl. lia.
Defined.

(** ** Reset *)

(** C8: from every state, and so from the state after any session,
    [handleReset] gives the state of the first render: no node, no edge, the
    level counter back at its initial value 1.  It is a total function: it
    cannot fail. *)
Theorem handleReset_initial (s : FlowState) :
  handleReset s = initialState
  ∧ nodes (handleReset s) = []
  ∧ edges (handleReset s) = []
  ∧ level (handleReset s) = level initialState
  ∧ ∀ ops : list Op, run (ops ++ [Reset]) = initialState.
Proof.
  repeat split; try done.
  intros ops. unfold run. by rewrite foldl_app.
Qed.

(** ** Editing the label *)

(** C9: [updateNodeLabel] applied twice with the same label gives the state
    that one application gives; it leaves the identity, the level, the type
    and the position of every node, the edges and the level counter as they
    were, and the nodes with the selected identity carry the new label. *)
Theorem updateNodeLabel_idempotent (label : string) (s : FlowState) :
  updateNodeLabel label (updateNodeLabel label s) = updateNodeLabel label s
  ∧ map Node.id (nodes (updateNodeLabel label s)) = map Node.id (nodes s)
  ∧ map (λ n, TextNodeData.level (Node.data n)) (nodes (updateNodeLabel label s))
    = map (λ n, TextNodeData.level (Node.data n)) (nodes s)
  ∧ map Node.type (nodes (updateNodeLabel label s)) = map Node.type (nodes s)
  ∧ map Node.position (nodes (updateNodeLabel label s))
    = map Node.position (nodes s)
  ∧ edges (updateNodeLabel label s) = edges s
  ∧ level (updateNodeLabel label s) = level s
  ∧ Forall (λ n, Some (Node.id n) = selectedNodeId s →
                 TextNodeData.label (Node.data n) = label)
      (nodes (updateNodeLabel label s)).
Proof.
  destruct s as [nds eds sel err lvl msg].
  unfold updateNodeLabel, setNodes; simpl.
  split; [f_equal |]; [| repeat split]; try done.
  - rewrite map_map. apply map_ext. intros n.
    repeat case_decide; simpl in *; done.
  - rewrite map_map. apply map_ext. intros n. by case_decide.
  - rewrite map_map. apply map_ext. intros n. by case_decide.
  - rewrite map_map. apply map_ext. intros n. by case_decide.
  - rewrite map_map. apply map_ext. intros n. by case_decide.
  - apply Forall_forall. intros n Hn.
    apply list_elem_of_fmap in Hn as (m & -> & _).
    case_decide; simpl; [done | intros; done].
Qed.

(** ** Connect *)

Lemma sourceAlreadyConnected_true (src : option string) (eds : list Edge.t) :
  existsb (λ e, bool_decide (Some (Edge.source e) = src)) eds = true
  ↔ ∃ x, src = Some x ∧ x ∈ map Edge.source eds.
Proof.
  rewrite existsb_exists. split.
  - intros (e & He & Heq). apply bool_decide_eq_true in Heq.
    exists (Edge.source e). split; [done |].
    apply list_elem_of_fmap. exists e. split; [done |].
    by apply list_elem_of_In.
  - intros (x & -> & Hx). apply list_elem_of_fmap in Hx as (e & -> & He).
    exists e. split; [by apply list_elem_of_In |].
    by apply bool_decide_eq_true.
Qed.

Lemma addEdge_cases (params : Connection.t) (eds : list Edge.t) :
  addEdge params eds = eds
  ∨ ∃ src tgt id,
      Connection.source params = Some src
      ∧ Connection.target params = Some tgt
      ∧ addEdge params eds = eds ++ [Edge.mk id src tgt].
Proof.
  unfold addEdge.
  destruct (Connection.source params) as [src|] eqn:Hs; [| by left].
  destruct (Connection.target params) as [tgt|] eqn:Ht; [| by left].
  case_decide; [by left |].
  destruct (existsb _ eds); [by left |].
  right. by eexists _, _, _.
Qed.

Lemma addEdge_fresh (src tgt : string) (eds : list Edge.t) :
  src ≠ "" → tgt ≠ "" → src ∉ map Edge.source eds →
  addEdge (Connection.mk (Some src) (Some tgt)) eds
  = eds ++ [Edge.mk ("reactflow__edge-" +:+ src +:+ "-" +:+ tgt) src tgt].
Proof.
  intros Hs Ht Hfresh. unfold addEdge; simpl.
  rewrite decide_False by tauto.
  destruct (existsb _ eds) eqn:Hex; [exfalso | done].
  apply existsb_exists in Hex as (e & He & Heq).
  apply bool_decide_eq_true in Heq as [Heq _].
  apply Hfresh, list_elem_of_fmap. exists e.
  split; [done | by apply list_elem_of_In].
Qed.

(** C5, as the code has it: [onConnect] never looks at the node store.  A
    connection between two non-empty identities whose source has no stored
    outgoing edge is appended to the edge store, and no error is set,
    whether or not the identities belong to nodes of the store. *)
Theorem onConnect_ignores_node_store (src tgt : string) (s : FlowState) :
  src ≠ "" → tgt ≠ "" → src ∉ map Edge.source (edges s) →
  edges (onConnect (Connection.mk (Some src) (Some tgt)) s)
  = edges s ++ [Edge.mk ("reactflow__edge-" +:+ src +:+ "-" +:+ tgt) src tgt]
  ∧ error (onConnect (Connection.mk (Some src) (Some tgt)) s) = error s
  ∧ nodes (onConnect (Connection.mk (Some src) (Some tgt)) s) = nodes s.
Proof.
  intros Hs Ht Hfresh. unfold onConnect; simpl.
  destruct (existsb _ (edges s)) eqn:Hex; simpl.
  - apply sourceAlreadyConnected_true in Hex as (x & [= <-] & Hx). done.
  - by rewrite addEdge_fresh.
Qed.

Lemma onConnect_ignores_node_store_witness :
  edges (onConnect ghostConnection initialState) = [scenarioEdge "N7" "N1"]
  ∧ error (onConnect ghostConnection initialState) = None
  ∧ nodes (onConnect ghostConnection initialState) = [].
Proof.
  apply (onConnect_ignores_node_store "N7" "N1" initialState);
    [done | done | simpl; apply not_elem_of_nil].
Defined.

(** C5 fails as it is stated: in the state of the first render no node
    exists, and yet the connection from "N7" to "N1" is stored and no error
    is reported. *)
Lemma onConnect_missing_endpoint_counterexample :
  ("N7" ∉ map Node.id (nodes initialState))
  ∧ ("N1" ∉ map Node.id (nodes initialState))
  ∧ edges (onConnect ghostConnection initialState) = [scenarioEdge "N7" "N1"]
  ∧ error (onConnect ghostConnection initialState) = None.
Proof. split_and!; (apply not_elem_of_nil || done). Qed.

(** ** Save without a root *)

Lemma findRoot_None (nds : list Node.t) (eds : list Edge.t) :
  findRoot nds eds = None
  ↔ ∀ n, n ∈ nds → Node.id n ∈ map Edge.target eds.
Proof.
  unfold findRoot. split.
  - intros Hnone n Hn.
    assert (In (Node.id n) (map Node.id nds)) as Hin
      by (apply in_map; by apply list_elem_of_In).
    apply (find_none _ _ Hnone) in Hin.
    apply negb_false_iff, bool_decide_eq_true in Hin. done.
  - intros Hall. induction nds as [|n nds IH]; [done |]. simpl.
    rewrite bool_decide_eq_true_2 by (apply Hall; left). simpl.
    apply IH. intros m Hm. apply Hall. by right.
Qed.

(** C2: when the store has two nodes or more and the identity of every
    node is the target of some edge, [handleSave] sets the error "no root
    node found" and leaves both stores as they are.  Scenario C (two nodes
    in a cycle) is such a state. *)
Theorem handleSave_no_root (s : FlowState) :
  (2 ≤ length (nodes s))%nat →
  (∀ n, n ∈ nodes s → ∃ e, e ∈ edges s ∧ Edge.target e = Node.id n) →
  error (handleSave s) = Some noRootMessage
  ∧ nodes (handleSave s) = nodes s
  ∧ edges (handleSave s) = edges s.
Proof.
  intros Hlen Htargets. unfold handleSave.
  rewrite bool_decide_eq_false_2 by lia.
  assert (findRoot (nodes s) (edges s) = None) as ->; [| done].
  apply findRoot_None. intros n Hn.
  destruct (Htargets n Hn) as (e & He & <-).
  apply list_elem_of_fmap. by exists e.
Qed.

Lemma handleSave_no_root_witness :
  error (handleSave scenarioC) = Some noRootMessage
  ∧ nodes (handleSave scenarioC) = nodes scenarioC
  ∧ edges (handleSave scenarioC) = edges scenarioC.
Proof.
  apply (handleSave_no_root scenarioC); [simpl; lia |].
  intros n Hn. simpl in Hn.
  apply elem_of_cons in Hn as [-> | Hn].
  - exists (scenarioEdge "N2" "N1"). split; [| done]. simpl. right. left.
  - apply elem_of_cons in Hn as [-> | Hn].
    + exists (scenarioEdge "N1" "N2"). split; [| done]. simpl. left.
    + by apply not_elem_of_nil in Hn.
Defined.

(** ** [validateFlow] *)

(** C10: [validateFlow] is true exactly when at most one position of the
    node list holds a node whose identity is the target of no edge.  It
    accepts the two-node cycle of scenario C, for which [handleSave] finds no
    root, and it refuses three nodes of which two are root candidates and
    the third is their target. *)
Theorem validateFlow_at_most_one_root :
  (∀ (nds : list Node.t) (eds : list Edge.t),
     validateFlow nds eds = true
     ↔ ∀ i j ni nj, nds !! i = Some ni → nds !! j = Some nj →
         rootCandidate eds (Node.id ni) → rootCandidate eds (Node.id nj) →
         i = j)
  ∧ validateFlow (nodes scenarioC) (edges scenarioC) = true
  ∧ error (handleSave scenarioC) = Some noRootMessage
  ∧ validateFlow (nodes twoRoots) (edges twoRoots) = false
  ∧ Forall (λ n, rootCandidate (edges twoRoots) (Node.id n)
                 ∨ Node.id n ∈ map Edge.target (edges twoRoots))
      (nodes twoRoots).
Proof.
  split_and!.
  - intros nds eds. unfold validateFlow, rootCandidate.
    rewrite bool_decide_eq_true, filter_length_le_1.
    split; intros H i j ni nj Hi Hj Hni Hnj;
      apply (H i j ni nj Hi Hj);
      rewrite ?elem_of_list_to_set in *; done.
  - by vm_compute.
  - by vm_compute.
  - by vm_compute.
  - unfold rootCandidate. simpl.
    apply Forall_cons. split; [left; by apply (bool_decide_unpack _) |].
    apply Forall_cons. split; [left; by apply (bool_decide_unpack _) |].
    apply Forall_cons. split; [right; left |]. apply Forall_nil_2.
Qed.

(** ** Identities *)

Lemma hasDash_app (a b : string) :
  hasDash (a +:+ b) = hasDash a || hasDash b.
Proof.
  induction a as [|c a IH]; simpl; [done |]. by case_decide.
Qed.

Lemma hasDash_pretty_N_go (x : N) (s : string) :
  hasDash (pretty_N_go x s) = hasDash s.
Proof.
  revert s. induction (N.lt_wf_0 x) as [x _ IH]; intros s.
  destruct (decide (x = 0)%N) as [-> | Hx]; [by rewrite pretty_N_go_0 |].
  rewrite pretty_N_go_step by lia.
  rewrite IH by (apply N.div_lt; lia).
  simpl. rewrite decide_False; [done |].
  unfold pretty_N_char. by repeat case_match.
Qed.

Lemma hasDash_pretty_level (lvl : Z) : 1 ≤ lvl → hasDash (pretty lvl) = false.
Proof.
  intros Hl. destruct lvl as [|p|p]; try lia.
  unfold pretty, pretty_Z, pretty, pretty_positive, pretty, pretty_N.
  rewrite decide_False by done. apply hasDash_pretty_N_go.
Qed.

Lemma string_app_nil (b : string) : "" +:+ b = b.
Proof. done. Qed.

Lemma string_app_cons (c : ascii) (a b : string) :
  String c a +:+ b = String c (a +:+ b).
Proof. done. Qed.

Lemma hasDash_dash_app (a b : string) :
  hasDash (a +:+ String "-"%char b) = true.
Proof. rewrite hasDash_app. simpl. apply orb_true_r. Qed.

(** The text after the last [-] of a string is determined by the string. *)
Lemma last_dash_inj (a a' b b' : string) :
  hasDash b = false → hasDash b' = false →
  a +:+ "-" +:+ b = a' +:+ "-" +:+ b' → b = b'.
Proof.
  change ("-" +:+ b) with (String "-"%char b).
  change ("-" +:+ b') with (String "-"%char b').
  intros Hb Hb'. revert a'.
  induction a as [|c a IH]; intros [|c' a'] Heq;
    rewrite ?string_app_nil, ?string_app_cons in Heq.
  - by injection Heq.
  - injection Heq as _ Heq. subst b.
    by rewrite hasDash_dash_app in Hb.
  - injection Heq as _ Heq. subst b'.
    by rewrite hasDash_dash_app in Hb'.
  - injection Heq as _ Heq. by eapply IH.
Qed.

Lemma nodeId_level_inj (now now' lvl lvl' : Z) :
  1 ≤ lvl → 1 ≤ lvl' → nodeId now lvl = nodeId now' lvl' → lvl = lvl'.
Proof.
  intros Hl Hl' Heq. unfold nodeId in Heq.
  apply last_dash_inj in Heq; auto using hasDash_pretty_level.
  by apply (inj pretty).
Qed.

Lemma nodeId_nonempty (now lvl : Z) : nodeId now lvl ≠ "".
Proof.
  unfold nodeId. intros Heq.
  pose proof (hasDash_dash_app (pretty now) (pretty lvl)) as Hd.
  change (String "-"%char (pretty lvl)) with ("-" +:+ pretty lvl) in Hd.
  by rewrite Heq in Hd.
Qed.

Lemma StoreInv_ids_NoDup (s : FlowState) :
  StoreInv s → NoDup (map Node.id (nodes s)).
Proof.
  intros [_ Hids Hlv _].
  induction (nodes s) as [|n nds IH]; simpl in *; [constructor |].
  apply Forall_cons in Hids as [[[now Hn] Hrange] Hids].
  apply NoDup_cons in Hlv as [Hfresh Hlv].
  apply NoDup_cons. split; [| by apply IH].
  intros Hin. apply list_elem_of_fmap in Hin as (m & Heq & Hm).
  apply Hfresh, list_elem_of_fmap. exists m. split; [| done].
  rewrite Forall_forall in Hids. destruct (Hids m Hm) as [[now' Hm'] Hrange'].
  rewrite Hn, Hm' in Heq. apply nodeId_level_inj in Heq; [done | lia..].
Qed.

Lemma StoreInv_ids_nonempty (s : FlowState) :
  StoreInv s → "" ∉ map Node.id (nodes s).
Proof.
  intros [_ Hids _ _] Hin.
  apply list_elem_of_fmap in Hin as (n & Heq & Hn).
  rewrite Forall_forall in Hids. destruct (Hids n Hn) as [[now Hid] _].
  rewrite Hid in Heq. symmetry in Heq. by apply nodeId_nonempty in Heq.
Qed.

(** ** The invariant of a session *)

Lemma StoreInv_initial : StoreInv initialState.
Proof. split; simpl; [lia | constructor..]. Qed.

Lemma StoreInv_add_node (n : Node.t) (now : Z) (s : FlowState) :
  Node.id n = nodeId now (level s) → nodeLevel n = level s →
  StoreInv s →
  StoreInv (setLevel (level s + 1) (setNodes (nodes s ++ [n]) s)).
Proof.
  intros Hid Hlvl [Hl Hids Hlv Hsrc]. split; simpl; [lia | | | done].
  - apply Forall_app. split.
    + eapply Forall_impl; [exact Hids |]. simpl. intros m [Hm Hr].
      split; [done | lia].
    + apply Forall_singleton. split; [exists now; by rewrite Hlvl | lia].
  - rewrite map_app. apply NoDup_app. split_and!; [done | | apply NoDup_singleton].
    intros l Hin Hl'. simpl in Hl'. apply list_elem_of_singleton in Hl'.
    apply list_elem_of_fmap in Hin as (m & -> & Hm).
    rewrite Forall_forall in Hids. destruct (Hids m Hm) as [_ Hr]. lia.
Qed.

Lemma onConnect_sources (params : Connection.t) (s : FlowState) :
  NoDup (map Edge.source (edges s)) →
  NoDup (map Edge.source (edges (onConnect params s))).
Proof.
  intros Hnd. unfold onConnect.
  destruct (existsb _ (edges s)) eqn:Hex; simpl; [done |].
  destruct (addEdge_cases params (edges s))
    as [-> | (src & tgt & id & Hs & Ht & ->)]; [done |].
  rewrite map_app. apply NoDup_app. split_and!; [done | | apply NoDup_singleton].
  intros x Hx Hx'. simpl in Hx'. apply list_elem_of_singleton in Hx'. subst x.
  assert (existsb (λ e, bool_decide (Some (Edge.source e)
            = Connection.source params)) (edges s) = true) as Hyes
    by (apply sourceAlreadyConnected_true; eauto).
  by rewrite Hyes in Hex.
Qed.

Lemma NoDup_map_filter {A B} (f : A → B) (P : A → Prop)
    `{!∀ x, Decision (P x)} (l : list A) :
  NoDup (map f l) → NoDup (map f (filter P l)).
Proof.
  intros Hnd. eapply sublist_NoDup; [exact Hnd |].
  change (f <$> filter P l `sublist_of` f <$> l).
  apply fmap_sublist, sublist_filter.
Qed.

Lemma Forall_filter_keep {A} (Q P : A → Prop) `{!∀ x, Decision (P x)}
    (l : list A) :
  Forall Q l → Forall Q (filter P l).
Proof.
  rewrite !Forall_forall. intros HQ x Hx.
  apply list_elem_of_filter in Hx as [_ Hx]. by apply HQ.
Qed.

Lemma StoreInv_step (s : FlowState) (op : Op) :
  StoreInv s → StoreInv (step s op).
Proof.
  intros Hinv. destruct op; simpl.
  - by apply (StoreInv_add_node _ now).
  - unfold onDrop. case_decide; [done |]. by apply (StoreInv_add_node _ now).
  - destruct Hinv as [Hl Hids Hlv Hsrc].
    split; [| | | by apply onConnect_sources];
      unfold onConnect; by destruct (negb _).
  - by destruct Hinv.
  - by destruct Hinv.
  - destruct Hinv as [Hl Hids Hlv Hsrc]. split; simpl; [done | | | done].
    + apply Forall_fmap. eapply Forall_impl; [exact Hids |].
      intros n Hn. simpl. by case_decide.
    + rewrite map_map.
      erewrite map_ext; [exact Hlv |]. intros n. by case_decide.
  - apply StoreInv_initial.
  - destruct Hinv as [Hl Hids Hlv Hsrc].
    destruct (handleSave_stores s) as (Hn & He & Hlvl & _).
    split; by rewrite ?Hn, ?He, ?Hlvl.
  - by destruct Hinv.
  - by destruct Hinv.
  - destruct Hinv as [Hl Hids Hlv Hsrc]. split; simpl; [done | | |].
    + by apply Forall_filter_keep.
    + by apply NoDup_map_filter.
    + by apply NoDup_map_filter.
  - destruct Hinv as [Hl Hids Hlv Hsrc]. split; simpl; [done..|].
    by apply NoDup_map_filter.
Qed.

Lemma StoreInv_run (ops : list Op) : StoreInv (run ops).
Proof.
  unfold run. induction ops as [|op ops IH] using rev_ind.
  - apply StoreInv_initial.
  - rewrite foldl_app. simpl. by apply StoreInv_step.
Qed.

(** ** One outgoing edge per source *)

(** C1: after every session no two stored edges have the same source; and
    in every state a connection whose source is the source of a stored edge
    is refused: the error "only one outgoing connection" is set, and the edge
    store and the node store are what they were before the call. *)
Theorem onConnect_single_outgoing (ops : list Op) (s : FlowState)
    (params : Connection.t) :
  NoDup (map Edge.source (edges (run ops)))
  ∧ (∀ src, Connection.source params = Some src →
            src ∈ map Edge.source (edges s) →
            error (onConnect params s) = Some duplicateOutgoingMessage
            ∧ edges (onConnect params s) = edges s
            ∧ nodes (onConnect params s) = nodes s).
Proof.
  split; [apply StoreInv_run |].
  intros src Hsrc Hin. unfold onConnect.
  assert (existsb (λ e, bool_decide (Some (Edge.source e)
            = Connection.source params)) (edges s) = true) as ->
    by (apply sourceAlreadyConnected_true; eauto).
  done.
Qed.

(** Scenario D: after the connection from the first node to the second, a
    connection from the first node again is refused and the edge store still
    holds the one edge. *)
Lemma onConnect_single_outgoing_witness :
  edges (run twoNodeSession)
  = [scenarioEdge "1700000000000-1" "1700000000000-2"]
  ∧ error (onConnect secondConnection (run twoNodeSession))
    = Some duplicateOutgoingMessage
  ∧ edges (onConnect secondConnection (run twoNodeSession))
    = edges (run twoNodeSession)
  ∧ nodes (onConnect secondConnection (run twoNodeSession))
    = nodes (run twoNodeSession).
Proof.
  split; [by vm_compute |].
  destruct (onConnect_single_outgoing twoNodeSession (run twoNodeSession)
              secondConnection) as [_ Hrefused].
  apply (Hrefused "1700000000000-1"); [done |].
  vm_compute. left.
Defined.

(** ** Distinct identities *)

(** C6: after every session the identities of the stored nodes are pairwise
    distinct.  In such a state [onAddTextNode], and [onDrop] with a type that
    is not empty, put exactly one node at the end of the store, with an
    identity that no stored node has; both are total functions and cannot
    fail. *)
Theorem node_ids_distinct (ops : list Op) :
  NoDup (map Node.id (nodes (run ops)))
  ∧ (∀ now rnd200 label, ∃ n,
       nodes (onAddTextNode now rnd200 label (run ops)) = nodes (run ops) ++ [n]
       ∧ (Node.id n ∉ map Node.id (nodes (run ops)))
       ∧ TextNodeData.label (Node.data n) = label)
  ∧ (∀ type now position, type ≠ "" → ∃ n,
       nodes (onDrop type now position (run ops)) = nodes (run ops) ++ [n]
       ∧ (Node.id n ∉ map Node.id (nodes (run ops)))).
Proof.
  split; [apply StoreInv_ids_NoDup, StoreInv_run |].
  split.
  - intros now rnd200 label. eexists. split; [done |]. simpl.
    pose proof (StoreInv_ids_NoDup _
      (StoreInv_step _ (AddTextNode now rnd200 label) (StoreInv_run ops)))
      as Hnd.
    simpl in Hnd. rewrite map_app in Hnd.
    apply NoDup_app in Hnd as (_ & Hfresh & _).
    split; [| done]. intros Hin. apply (Hfresh _ Hin). simpl. left.
  - intros type now position Hty.
    pose proof (StoreInv_ids_NoDup _
      (StoreInv_step _ (Drop type now position) (StoreInv_run ops))) as Hnd.
    simpl in Hnd. unfold onDrop in *. rewrite decide_False in * by done.
    eexists. split; [done |]. simpl in *. rewrite map_app in Hnd.
    apply NoDup_app in Hnd as (_ & Hfresh & _).
    intros Hin. apply (Hfresh _ Hin). simpl. left.
Qed.

Lemma node_ids_distinct_witness :
  map Node.id (nodes (run twoNodeSession))
  = ["1700000000000-1"; "1700000000000-2"]
  ∧ NoDup (map Node.id (nodes (run twoNodeSession)))
  ∧ ∃ n, nodes (onDrop "textNode" 1700000000000 (XYPosition.mk 0 0)
                  (run twoNodeSession))
         = nodes (run twoNodeSession) ++ [n]
         ∧ (Node.id n ∉ map Node.id (nodes (run twoNodeSession))).
Proof.
  split; [by vm_compute |].
  destruct (node_ids_distinct twoNodeSession) as (Hnd & _ & Hdrop).
  split; [exact Hnd |].
  by apply (Hdrop "textNode" 1700000000000 (XYPosition.mk 0 0)).
Defined.

(** ** The adjacency list *)

Lemma graphAdd_lookup (graph : gmap string (list string)) (e : Edge.t)
    (x : string) :
  default [] (graphAdd graph e !! x)
  = default [] (graph !! x)
    ++ (if decide (Edge.source e = x) then [Edge.target e] else []).
Proof.
  unfold graphAdd. rewrite lookup_alter.
  destruct (decide (Edge.source e = x)) as [<- | Hne].
  - case_decide as Hsome.
    + destruct Hsome as [l Hl]. by rewrite Hl.
    + rewrite lookup_insert_eq. simpl.
      apply eq_None_not_Some in Hsome. by rewrite Hsome.
  - rewrite app_nil_r. case_decide; [done |].
    by rewrite lookup_insert_ne.
Qed.

Lemma buildGraph_lookup (eds : list Edge.t) (x : string) :
  default [] (buildGraph eds !! x)
  = map Edge.target (filter (λ e, Edge.source e = x) eds).
Proof.
  unfold buildGraph. induction eds as [|e eds IH] using rev_ind; [done |].
  rewrite foldl_app. simpl. rewrite graphAdd_lookup, IH.
  rewrite filter_app, map_app. f_equal.
  rewrite filter_cons, filter_nil. by case_decide.
Qed.

Lemma neighbors_edgeStep (eds : list Edge.t) (x y : string) :
  y ∈ default [] (buildGraph eds !! x) ↔ edgeStep eds x y.
Proof.
  rewrite buildGraph_lookup. unfold edgeStep. split.
  - intros Hy. apply list_elem_of_fmap in Hy as (e & -> & He).
    apply list_elem_of_filter in He as [Hsrc He]. by exists e.
  - intros (e & He & Hsrc & <-). apply list_elem_of_fmap.
    exists e. split; [done |]. by apply list_elem_of_filter.
Qed.

Lemma neighbors_length (eds : list Edge.t) (x : string) :
  (length (default [] (buildGraph eds !! x)) ≤ length eds)%nat.
Proof.
  rewrite buildGraph_lookup, length_map. apply length_filter.
Qed.

(** ** The traversal visits what is reachable *)

Lemma loopInv_start (eds : list Edge.t) (rootNode : string) :
  loopInv eds rootNode ∅ [rootNode].
Proof.
  split_and!.
  - intros x [Hx | Hx]; [by apply not_elem_of_empty in Hx |].
    apply list_elem_of_singleton in Hx as ->. apply rtc_refl.
  - intros x y Hx. by apply not_elem_of_empty in Hx.
  - right. by apply list_elem_of_singleton.
Qed.

Lemma loopInv_turn (eds : list Edge.t) (rootNode : string)
    (visited : gset string) (current : string) (rest : list string) :
  loopInv eds rootNode visited (current :: rest) →
  loopInv eds rootNode (visited ∪ {[current]})
    (rest ++ filter (λ n, n ∉ visited ∪ {[current]})
               (default [] (buildGraph eds !! current))).
Proof.
  intros (Hreach & Hclosed & Hroot). split_and!.
  - intros x [Hx | Hx].
    + apply Hreach. apply elem_of_union in Hx as [Hx | Hx]; [by left |].
      apply elem_of_singleton in Hx as ->. right. left.
    + apply elem_of_app in Hx as [Hx | Hx].
      * apply Hreach. right. by right.
      * apply list_elem_of_filter in Hx as [_ Hx].
        apply neighbors_edgeStep in Hx.
        eapply rtc_r; [| exact Hx]. apply Hreach. right. left.
  - intros x y Hx Hstep.
    destruct (decide (y ∈ visited ∪ {[current]})) as [Hy | Hy]; [by left |].
    right. apply elem_of_app.
    apply elem_of_union in Hx as [Hx | Hx].
    + destruct (Hclosed x y Hx Hstep) as [Hv | Hq].
      * exfalso. apply Hy, elem_of_union. by left.
      * apply elem_of_cons in Hq as [-> | Hq]; [| by left].
        exfalso. apply Hy, elem_of_union. right. by apply elem_of_singleton.
    + apply elem_of_singleton in Hx as ->. right.
      apply list_elem_of_filter. split; [done |].
      by apply neighbors_edgeStep.
  - destruct Hroot as [Hr | Hr]; [left; apply elem_of_union; by left |].
    apply elem_of_cons in Hr as [-> | Hr].
    + left. apply elem_of_union. right. by apply elem_of_singleton.
    + right. apply elem_of_app. by left.
Qed.

Lemma loopInv_done (eds : list Edge.t) (rootNode : string)
    (visited : gset string) (x : string) :
  loopInv eds rootNode visited [] →
  x ∈ visited ↔ reachable eds rootNode x.
Proof.
  intros (Hreach & Hclosed & Hroot). split; [intros; apply Hreach; by left |].
  intros Hx. revert x Hx. apply (rtc_ind_r (λ z, z ∈ visited)).
  - destruct Hroot as [Hr | Hr]; [done | by apply not_elem_of_nil in Hr].
  - intros y z _ Hstep IH.
    destruct (Hclosed y z IH Hstep) as [Hv | Hq]; [done |].
    by apply not_elem_of_nil in Hq.
Qed.

Lemma bfs_reachable (eds : list Edge.t) (rootNode : string) (fuel : nat)
    (visited : gset string) (queue : list string) (x : string) :
  loopInv eds rootNode visited queue →
  (bfs fuel (buildGraph eds) visited queue).2 = [] →
  x ∈ (bfs fuel (buildGraph eds) visited queue).1
  ↔ reachable eds rootNode x.
Proof.
  revert visited queue.
  induction fuel as [|fuel IH]; intros visited queue Hinv Hend.
  - simpl in *. subst queue. by apply loopInv_done.
  - destruct queue as [|current rest].
    + simpl. by apply loopInv_done.
    + simpl in *. apply IH; [by apply loopInv_turn | done].
Qed.

(** ** The traversal ends *)

Lemma queueWeight_pos (k u : nat) : (1 ≤ queueWeight k u)%nat.
Proof. destruct u; simpl; lia. Qed.

Lemma queueWeight_le_succ (k u : nat) :
  (1 ≤ k → queueWeight k u ≤ queueWeight k (S u))%nat.
Proof.
  intros Hk.
  change (queueWeight k (S u)) with (1 + k * (1 + k * queueWeight k u))%nat.
  assert (queueWeight k u ≤ k * queueWeight k u)%nat by nia.
  assert (k * queueWeight k u ≤ k * (1 + k * queueWeight k u))%nat by nia.
  lia.
Qed.

Lemma entryWeight_pos (k : nat) (universe visited : gset string) (x : string) :
  (1 ≤ entryWeight k universe visited x)%nat.
Proof.
  unfold entryWeight. case_decide; [lia | apply queueWeight_pos].
Qed.

Lemma queuePotential_app (k : nat) (universe visited : gset string)
    (q1 q2 : list string) :
  queuePotential k universe visited (q1 ++ q2)
  = (queuePotential k universe visited q1
     + queuePotential k universe visited q2)%nat.
Proof. induction q1 as [|x q1 IH]; simpl; [done | lia]. Qed.

Lemma queuePotential_unvisited (k : nat) (universe visited : gset string)
    (queue : list string) :
  Forall (λ x, x ∉ visited) queue →
  queuePotential k universe visited queue
  = (length queue * queueWeight k (size (universe ∖ visited)))%nat.
Proof.
  induction 1 as [|x queue Hx _ IH]; simpl; [done |].
  unfold entryWeight at 1. rewrite decide_False by done. lia.
Qed.

Lemma size_visit (universe visited : gset string) (current : string) :
  current ∈ universe → current ∉ visited →
  size (universe ∖ visited) = S (size (universe ∖ (visited ∪ {[current]}))).
Proof.
  intros Hu Hv.
  assert (universe ∖ visited
          = {[current]} ∪ universe ∖ (visited ∪ {[current]})) as ->.
  { apply set_eq. intros x.
    rewrite elem_of_union, !elem_of_difference, elem_of_union,
      elem_of_singleton.
    destruct (decide (x = current)) as [-> | Hne]; tauto. }
  rewrite size_union, size_singleton; [done |].
  intros x Hx Hx'. apply elem_of_singleton in Hx as ->.
  apply elem_of_difference in Hx' as [_ Hx'].
  apply Hx', elem_of_union. right. by apply elem_of_singleton.
Qed.

Lemma entryWeight_visit (k : nat) (universe visited : gset string)
    (current x : string) :
  (1 ≤ k)%nat → current ∈ universe → current ∉ visited →
  (entryWeight k universe (visited ∪ {[current]}) x
   ≤ entryWeight k universe visited x)%nat.
Proof.
  intros Hk Hu Hv. unfold entryWeight.
  rewrite (size_visit universe visited current) by done.
  pose proof (queueWeight_le_succ k
    (size (universe ∖ (visited ∪ {[current]}))) Hk) as Hle.
  destruct (decide (x ∈ visited)) as [Hx | Hx].
  - rewrite decide_True by (apply elem_of_union; by left). nia.
  - case_decide; [simpl; nia | done].
Qed.

Lemma queuePotential_visit (k : nat) (universe visited : gset string)
    (current : string) (queue : list string) :
  (1 ≤ k)%nat → current ∈ universe → current ∉ visited →
  (queuePotential k universe (visited ∪ {[current]}) queue
   ≤ queuePotential k universe visited queue)%nat.
Proof.
  intros Hk Hu Hv. induction queue as [|x queue IH]; simpl; [done |].
  pose proof (entryWeight_visit k universe visited current x Hk Hu Hv). lia.
Qed.

(** One turn of the loop lowers the potential of the queue. *)
Lemma queuePotential_turn (k : nat) (universe visited : gset string)
    (current : string) (rest neighbors : list string) :
  (length neighbors < k)%nat → current ∈ universe →
  (queuePotential k universe (visited ∪ {[current]})
     (rest ++ filter (λ n, n ∉ visited ∪ {[current]}) neighbors)
   < queuePotential k universe visited (current :: rest))%nat.
Proof.
  intros Hk Hu. rewrite queuePotential_app.
  rewrite (queuePotential_unvisited _ _ _ (filter _ neighbors)).
  2:{ apply Forall_forall. intros x Hx.
      by apply list_elem_of_filter in Hx as [Hx _]. }
  pose proof (length_filter (λ n, n ∉ visited ∪ {[current]}) neighbors)
    as Hlen.
  simpl. destruct (decide (current ∈ visited)) as [Hv | Hv].
  - assert (visited ∪ {[current]} = visited) as Heq.
    { apply set_eq. intros x. rewrite elem_of_union, elem_of_singleton.
      split; [intros [? | ->]; done | by left]. }
    rewrite Heq in *.
    unfold entryWeight. rewrite decide_True by done.
    set (l := length (filter (λ n, n ∉ visited) neighbors)) in *.
    assert (l * queueWeight k (size (universe ∖ visited))
            ≤ k * queueWeight k (size (universe ∖ visited)))%nat by nia.
    lia.
  - pose proof (queuePotential_visit k universe visited current rest
      ltac:(lia) Hu Hv) as Hrest.
    unfold entryWeight at 1. rewrite decide_False by done.
    rewrite (size_visit universe visited current) by done.
    set (u := size (universe ∖ (visited ∪ {[current]}))).
    change (queueWeight k (S u)) with (1 + k * (1 + k * queueWeight k u))%nat.
    set (l := length (filter (λ n, n ∉ visited ∪ {[current]}) neighbors))
      in *.
    assert (l * queueWeight k u ≤ k * queueWeight k u)%nat by nia.
    assert (k * queueWeight k u ≤ k * (k * queueWeight k u))%nat by nia.
    lia.
Qed.

Lemma bfs_ends (eds : list Edge.t) (universe : gset string) (fuel : nat)
    (visited : gset string) (queue : list string) :
  (∀ e, e ∈ eds → Edge.target e ∈ universe) →
  Forall (λ x, x ∈ universe) queue →
  (queuePotential (S (length eds)) universe visited queue ≤ fuel)%nat →
  (bfs fuel (buildGraph eds) visited queue).2 = [].
Proof.
  intros Htargets. revert visited queue.
  induction fuel as [|fuel IH]; intros visited [|current rest] Hq Hfuel;
    simpl in *; try done.
  - pose proof (entryWeight_pos (S (length eds)) universe visited current).
    lia.
  - apply Forall_cons in Hq as [Hcur Hrest].
    pose proof (queuePotential_turn (S (length eds)) universe visited
      current rest (default [] (buildGraph eds !! current))
      ltac:(pose proof (neighbors_length eds current); lia) Hcur) as Hturn.
    simpl in Hturn. apply IH; [| lia].
    apply Forall_app. split; [done |].
    apply Forall_forall. intros x Hx.
    apply list_elem_of_filter in Hx as [_ Hx].
    apply neighbors_edgeStep in Hx as (e & He & _ & <-). by apply Htargets.
Qed.

(** The fuel that [handleSave] gives to the loop lets it empty its queue. *)
Lemma bfs_fuel_enough (rootNode : string) (eds : list Edge.t) :
  (bfs (bfsFuel rootNode eds) (buildGraph eds) ∅ [rootNode]).2 = [].
Proof.
  apply (bfs_ends eds (bfsUniverse rootNode eds)).
  - intros e He. unfold bfsUniverse. apply elem_of_union. right.
    apply elem_of_list_to_set, list_elem_of_fmap. by exists e.
  - apply Forall_singleton. unfold bfsUniverse.
    apply elem_of_union. left. by apply elem_of_singleton.
  - simpl. unfold entryWeight, bfsFuel.
    rewrite decide_False by apply not_elem_of_empty.
    rewrite difference_empty_L. lia.
Qed.

Lemma visitedFrom_reachable (rootNode : string) (eds : list Edge.t)
    (x : string) :
  x ∈ visitedFrom rootNode eds ↔ reachable eds rootNode x.
Proof.
  unfold visitedFrom.
  apply bfs_reachable; [apply loopInv_start | apply bfs_fuel_enough].
Qed.

(** ** Save with a root *)

Lemma findRoot_head (nds : list Node.t) (eds : list Edge.t) :
  findRoot nds eds = head (rootCandidates nds eds).
Proof.
  unfold findRoot, rootCandidates, rootCandidate.
  induction nds as [|n nds IH]; [done |]. simpl. rewrite filter_cons.
  destruct (decide (Node.id n ∉ map Edge.target eds)) as [Hn | Hn].
  - by rewrite bool_decide_eq_false_2.
  - rewrite bool_decide_eq_true_2; [done |].
    by destruct (decide (Node.id n ∈ map Edge.target eds)).
Qed.

Lemma rootCandidates_elem (nds : list Node.t) (eds : list Edge.t)
    (c : string) :
  c ∈ rootCandidates nds eds ↔ rootCandidate eds c ∧ c ∈ map Node.id nds.
Proof. apply list_elem_of_filter. Qed.

(** Nothing leads to a root candidate but the empty path. *)
Lemma rootCandidate_unreachable (eds : list Edge.t) (r c : string) :
  rootCandidate eds c → c ≠ r → ¬ reachable eds r c.
Proof.
  intros Hc Hne Hreach. apply rtc_inv_r in Hreach as [-> | (y & _ & Hstep)].
  - done.
  - destruct Hstep as (e & He & _ & <-). apply Hc.
    apply list_elem_of_fmap. by exists e.
Qed.

Lemma disconnectedNodes_elem (rootNode : string) (nds : list Node.t)
    (eds : list Edge.t) (id : string) :
  id ∈ disconnectedNodes rootNode nds eds
  ↔ id ∈ map Node.id nds ∧ ¬ reachable eds rootNode id.
Proof.
  unfold disconnectedNodes.
  rewrite list_elem_of_filter, visitedFrom_reachable. tauto.
Qed.

(** What [handleSave] does once it has a root that is not the empty string. *)
Lemma handleSave_rooted (s : FlowState) (rootNode : string) :
  (2 ≤ length (nodes s))%nat →
  findRoot (nodes s) (edges s) = Some rootNode → rootNode ≠ "" →
  handleSave s
  = if bool_decide
         (0 < length (disconnectedNodes rootNode (nodes s) (edges s)))%nat
    then setError
           (Some (disconnectedMessage
              (length (disconnectedNodes rootNode (nodes s) (edges s))))) s
    else setSuccessMessage (Some savedMessage) (setError None s).
Proof.
  intros Hlen Hroot Hne. unfold handleSave.
  rewrite bool_decide_eq_false_2 by lia.
  rewrite Hroot. by rewrite decide_False.
Qed.

(** In a session the root that [handleSave] finds is never the empty
    string: every identity comes from [nodeId]. *)
Lemma run_root_nonempty (ops : list Op) (rootNode : string) :
  findRoot (nodes (run ops)) (edges (run ops)) = Some rootNode →
  rootNode ≠ "".
Proof.
  intros Hroot ->. apply (StoreInv_ids_nonempty _ (StoreInv_run ops)).
  apply list_elem_of_In. unfold findRoot in Hroot.
  by apply find_some in Hroot as [Hin _].
Qed.

(** Scenario A is saved; scenario B is not. *)
Example scenarioA_saved :
  error (handleSave scenarioA) = None
  ∧ successMessage (handleSave scenarioA) = Some savedMessage.
Proof. vm_compute. done. Qed.

Example scenarioB_error :
  error (handleSave scenarioB) = Some (disconnectedMessage 1).
Proof. vm_compute. done. Qed.

(** C3, as the code has it: with two nodes or more and a first root
    candidate that is not the empty string, the loop of [handleSave] ends
    with an empty queue, and the set it has built holds exactly what is
    reachable from that root along edges, source to target.  The nodes of
    the store outside this set are the disconnected ones.  When there is
    one, the error message gives their number, and only their number; when
    there is none, the error is cleared and the success message is set. *)
Theorem handleSave_traversal (s : FlowState) (rootNode : string) :
  (2 ≤ length (nodes s))%nat →
  head (rootCandidates (nodes s) (edges s)) = Some rootNode →
  rootNode ≠ "" →
  (bfs (bfsFuel rootNode (edges s)) (buildGraph (edges s)) ∅ [rootNode]).2 = []
  ∧ (∀ id, id ∈ visitedFrom rootNode (edges s)
           ↔ reachable (edges s) rootNode id)
  ∧ (∀ id, id ∈ disconnectedNodes rootNode (nodes s) (edges s)
           ↔ id ∈ map Node.id (nodes s) ∧ ¬ reachable (edges s) rootNode id)
  ∧ (disconnectedNodes rootNode (nodes s) (edges s) ≠ [] →
       error (handleSave s)
       = Some (disconnectedMessage
                 (length (disconnectedNodes rootNode (nodes s) (edges s))))
       ∧ successMessage (handleSave s) = successMessage s)
  ∧ (disconnectedNodes rootNode (nodes s) (edges s) = [] →
       error (handleSave s) = None
       ∧ successMessage (handleSave s) = Some savedMessage).
Proof.
  intros Hlen Hroot Hne. rewrite <- findRoot_head in Hroot.
  split_and!.
  - apply bfs_fuel_enough.
  - intros id. apply visitedFrom_reachable.
  - intros id. apply disconnectedNodes_elem.
  - intros Hsome. rewrite (handleSave_rooted s rootNode) by done.
    rewrite bool_decide_eq_true_2; [done |].
    destruct (disconnectedNodes rootNode (nodes s) (edges s));
      [done | simpl; lia].
  - intros Hnone. rewrite (handleSave_rooted s rootNode) by done.
    by rewrite Hnone.
Qed.

(** Scenario B: the message counts one node. *)
Lemma handleSave_traversal_witness :
  disconnectedNodes "N1" (nodes scenarioB) (edges scenarioB) = ["N3"]
  ∧ error (handleSave scenarioB) = Some (disconnectedMessage 1)
  ∧ successMessage (handleSave scenarioB) = None.
Proof.
  assert (disconnectedNodes "N1" (nodes scenarioB) (edges scenarioB) = ["N3"])
    as Hdis by (by vm_compute).
  split; [exact Hdis |].
  destruct (handleSave_traversal scenarioB "N1") as (_ & _ & _ & Herr & _);
    [simpl; lia | by vm_compute | done |].
  rewrite Hdis in Herr. by apply Herr.
Defined.

(** C3 fails as it is stated: what [handleSave] reports for scenario B is
    the message with the number 1 and nothing else, and it reports the very
    same for a store in which the node that is not visited is N4, not N3.
    The identities are not part of the result. *)
Lemma handleSave_disconnected_ids_counterexample :
  disconnectedNodes "N1" (nodes scenarioB) (edges scenarioB) = ["N3"]
  ∧ disconnectedNodes "N1" (nodes scenarioB4) (edges scenarioB4) = ["N4"]
  ∧ saveResult scenarioB
    = (Some "Cannot save Flow: 1 node(s) are not connected to the main flow.",
       None)
  ∧ saveResult scenarioB4 = saveResult scenarioB
  ∧ ¬ ∃ ids : option string * option string → list string,
        ids (saveResult scenarioB)
        = disconnectedNodes "N1" (nodes scenarioB) (edges scenarioB)
        ∧ ids (saveResult scenarioB4)
          = disconnectedNodes "N1" (nodes scenarioB4) (edges scenarioB4).
Proof.
  assert (saveResult scenarioB4 = saveResult scenarioB) as Hsame
    by (by vm_compute).
  split_and!; try (by vm_compute).
  intros (ids & HB & HB4). rewrite Hsame, HB in HB4.
  by vm_compute in HB4.
Qed.

(** ** More than one root candidate *)

(** C7: with two nodes or more and more than one root candidate,
    [handleSave] starts its traversal at the first root candidate in the
    order of the node store, and at no other.  Every node that this root
    does not reach is among the disconnected nodes, and the error message
    that counts them is set; the other root candidates are such nodes, and
    when the identities of the store are pairwise distinct the second
    candidate is one of them. *)
Theorem handleSave_first_root (s : FlowState) (rootNode other : string)
    (others : list string) :
  (2 ≤ length (nodes s))%nat →
  rootCandidates (nodes s) (edges s) = rootNode :: other :: others →
  rootNode ≠ "" →
  findRoot (nodes s) (edges s) = Some rootNode
  ∧ (∀ id, id ∈ visitedFrom rootNode (edges s)
           ↔ reachable (edges s) rootNode id)
  ∧ (∀ id, id ∈ map Node.id (nodes s) →
           ¬ reachable (edges s) rootNode id →
           id ∈ disconnectedNodes rootNode (nodes s) (edges s)
           ∧ error (handleSave s)
             = Some (disconnectedMessage
                 (length (disconnectedNodes rootNode (nodes s) (edges s)))))
  ∧ (∀ c, c ∈ other :: others → c ≠ rootNode →
          ¬ reachable (edges s) rootNode c
          ∧ c ∈ disconnectedNodes rootNode (nodes s) (edges s))
  ∧ (NoDup (map Node.id (nodes s)) → other ≠ rootNode).
Proof.
  intros Hlen Hcands Hne.
  assert (findRoot (nodes s) (edges s) = Some rootNode) as Hroot
    by (by rewrite findRoot_head, Hcands).
  split_and!; [done | intros id; apply visitedFrom_reachable | | |].
  - intros id Hid Hunreach.
    assert (id ∈ disconnectedNodes rootNode (nodes s) (edges s)) as Hin
      by (by apply disconnectedNodes_elem).
    split; [done |]. rewrite (handleSave_rooted s rootNode) by done.
    rewrite bool_decide_eq_true_2; [done |].
    destruct (disconnectedNodes rootNode (nodes s) (edges s));
      [by apply not_elem_of_nil in Hin | simpl; lia].
  - intros c Hc Hcne.
    assert (c ∈ rootCandidates (nodes s) (edges s)) as Hcand
      by (rewrite Hcands; by right).
    apply rootCandidates_elem in Hcand as [Hcand Hstore].
    assert (¬ reachable (edges s) rootNode c) as Hunreach
      by (by apply rootCandidate_unreachable).
    split; [done | by apply disconnectedNodes_elem].
  - intros Hnd Heq.
    assert (NoDup (rootCandidates (nodes s) (edges s))) as Hnd'
      by (by apply NoDup_filter).
    rewrite Hcands, Heq in Hnd'. apply NoDup_cons in Hnd' as [Hfresh _].
    apply Hfresh. left.
Qed.

(** Two root candidates N1 and N2 with the common target N3: the traversal
    starts at N1, and N2 is reported. *)
Lemma handleSave_first_root_witness :
  findRoot (nodes twoRoots) (edges twoRoots) = Some "N1"
  ∧ "N2" ∈ disconnectedNodes "N1" (nodes twoRoots) (edges twoRoots)
  ∧ error (handleSave twoRoots) = Some (disconnectedMessage 1).
Proof.
  destruct (handleSave_first_root twoRoots "N1" "N2" [])
    as (Hroot & _ & Hrep & Hcand & _);
    [simpl; lia | by vm_compute | done |].
  split; [exact Hroot |].
  destruct (Hcand "N2") as [Hunreach Hin]; [left | done |].
  split; [exact Hin |].
  destruct (Hrep "N2") as [_ Herr]; [simpl; right; left | exact Hunreach |].
  rewrite Herr. by vm_compute.
Defined.

(** * Further properties *)

(** ** Editing and the selection *)

Lemma setNodes_same (s : FlowState) : setNodes (nodes s) s = s.
Proof. by destruct s. Qed.

Lemma updateNodeLabel_withLabel (label : string) (s : FlowState) :
  updateNodeLabel label s
  = setNodes
      (map (λ node, if decide (Some (Node.id node) = selectedNodeId s)
                    then withLabel label node else node) (nodes s)) s.
Proof. done. Qed.

(** X1: when no stored node has the selected identity, and so when nothing
    is selected, [updateNodeLabel] changes nothing at all. *)
Theorem updateNodeLabel_no_selection (label : string) (s : FlowState) :
  (∀ n, n ∈ nodes s → Some (Node.id n) ≠ selectedNodeId s) →
  updateNodeLabel label s = s ∧ selectedNode s = None.
Proof.
  intros Hnone. split.
  - rewrite updateNodeLabel_withLabel.
    rewrite <- (setNodes_same s) at 3. f_equal.
    rewrite <- (map_id (nodes s)) at 2. apply map_ext_in.
    intros n Hn. apply list_elem_of_In in Hn.
    rewrite decide_False; [done | by apply Hnone].
  - unfold selectedNode.
    destruct (find _ (nodes s)) as [n|] eqn:Hfind; [exfalso | done].
    apply find_some in Hfind as [Hn Hsel].
    apply bool_decide_eq_true in Hsel.
    by apply (Hnone n); [apply list_elem_of_In |].
Qed.

Lemma updateNodeLabel_no_selection_witness :
  updateNodeLabel "Hi" scenarioA = scenarioA ∧ selectedNode scenarioA = None.
Proof.
  apply (updateNodeLabel_no_selection "Hi" scenarioA). intros n _. done.
Defined.

Lemma find_map_fixed {A} (p : A → bool) (f : A → A) (l : list A) :
  (∀ x, p (f x) = p x) → find p (map f l) = f <$> find p l.
Proof.
  intros Hp. induction l as [|x l IH]; [done |]. simpl.
  rewrite Hp. by destruct (p x).
Qed.

(** X2: what the settings panel reads after an edit is the node it read
    before, with the new label and nothing else changed. *)
Theorem updateNodeLabel_selectedNode (label : string) (s : FlowState)
    (n : Node.t) :
  selectedNode s = Some n →
  selectedNode (updateNodeLabel label s) = Some (withLabel label n)
  ∧ TextNodeData.label (Node.data (withLabel label n)) = label
  ∧ Node.id (withLabel label n) = Node.id n.
Proof.
  intros Hsel. split; [| done].
  unfold selectedNode in *. rewrite updateNodeLabel_withLabel. simpl.
  rewrite find_map_fixed by (intros x; by case_decide).
  rewrite Hsel. simpl.
  apply find_some in Hsel as [_ Hn]. apply bool_decide_eq_true in Hn.
  by rewrite decide_True.
Qed.

Lemma updateNodeLabel_selectedNode_witness :
  selectedNode (updateNodeLabel "Hi" clickedA) = Some (withLabel "Hi" N1)
  ∧ TextNodeData.label (Node.data (withLabel "Hi" N1)) = "Hi"
  ∧ Node.id (withLabel "Hi" N1) = Node.id N1.
Proof. by apply (updateNodeLabel_selectedNode "Hi" clickedA N1). Defined.

(** X3: of two edits in a row the second wins: the state is the one that
    the second edit alone gives. *)
Theorem updateNodeLabel_last_wins (label1 label2 : string) (s : FlowState) :
  updateNodeLabel label2 (updateNodeLabel label1 s)
  = updateNodeLabel label2 s.
Proof.
  destruct s as [nds eds sel err lvl msg].
  unfold updateNodeLabel, setNodes. simpl. f_equal.
  rewrite map_map. apply map_ext. intros n.
  repeat case_decide; simpl in *; done.
Qed.

Lemma find_unique {A} (p : A → bool) (l : list A) (x : A) :
  x ∈ l → p x = true → (∀ y, y ∈ l → p y = true → y = x) →
  find p l = Some x.
Proof.
  intros Hx Hp Huniq. induction l as [|a l IH]; [by apply not_elem_of_nil in Hx |].
  simpl. destruct (p a) eqn:Ha.
  - f_equal. apply Huniq; [left | done].
  - apply IH.
    + apply elem_of_cons in Hx as [-> | Hx]; [congruence | done].
    + intros y Hy. apply Huniq. by right.
Qed.

Lemma NoDup_fmap_eq {A B} (f : A → B) (l : list A) (x y : A) :
  NoDup (map f l) → x ∈ l → y ∈ l → f x = f y → x = y.
Proof.
  induction l as [|a l IH]; intros Hnd Hx Hy Heq;
    [by apply not_elem_of_nil in Hx |].
  simpl in Hnd. apply NoDup_cons in Hnd as [Hfresh Hnd].
  apply elem_of_cons in Hx as [-> | Hx]; apply elem_of_cons in Hy as [-> | Hy].
  - done.
  - exfalso. apply Hfresh. rewrite Heq. apply list_elem_of_fmap. by exists y.
  - exfalso. apply Hfresh. rewrite <- Heq. apply list_elem_of_fmap. by exists x.
  - by apply IH.
Qed.

(** X4: when the identities of the store are pairwise distinct, as they are
    after every session, a click on a stored node makes this very node the
    selected one. *)
Theorem onNodeClick_selectedNode (node : Node.t) (s : FlowState) :
  NoDup (map Node.id (nodes s)) → node ∈ nodes s →
  selectedNode (onNodeClick node s) = Some node
  ∧ nodes (onNodeClick node s) = nodes s
  ∧ edges (onNodeClick node s) = edges s.
Proof.
  intros Hnd Hin. split; [| done]. unfold selectedNode. simpl.
  apply find_unique; [done | by apply bool_decide_eq_true |].
  intros y Hy Hsel. apply bool_decide_eq_true in Hsel as [= Hid].
  by apply (NoDup_fmap_eq Node.id (nodes s)).
Qed.

Lemma onNodeClick_selectedNode_witness :
  selectedNode (onNodeClick N2 scenarioA) = Some N2
  ∧ nodes (onNodeClick N2 scenarioA) = nodes scenarioA
  ∧ edges (onNodeClick N2 scenarioA) = edges scenarioA.
Proof.
  apply (onNodeClick_selectedNode N2 scenarioA).
  - by apply (bool_decide_unpack _).
  - simpl. right. left.
Defined.

(** ** The verdict of a save *)

Lemma handleSave_verdict (s : FlowState) :
  handleSave s
  = match saveVerdict (nodes s) (edges s) with
    | None => setSuccessMessage (Some savedMessage) (setError None s)
    | Some message => setError (Some message) s
    end.
Proof.
  unfold handleSave, saveVerdict.
  repeat (case_bool_decide || case_match || case_decide);
    simplify_eq; done.
Qed.

Lemma handleSave_error (s : FlowState) :
  error (handleSave s) = saveVerdict (nodes s) (edges s).
Proof.
  rewrite handleSave_verdict. by destruct (saveVerdict _ _).
Qed.

(** X5: a save reads the stores and writes only the two messages: nodes,
    edges, level counter and selection are what they were, and a second
    save right after the first changes nothing more. *)
Theorem handleSave_idempotent (s : FlowState) :
  handleSave (handleSave s) = handleSave s
  ∧ nodes (handleSave s) = nodes s
  ∧ edges (handleSave s) = edges s
  ∧ level (handleSave s) = level s
  ∧ selectedNodeId (handleSave s) = selectedNodeId s.
Proof.
  destruct (handleSave_stores s) as (Hn & He & Hl & Hsel).
  split; [| done].
  rewrite (handleSave_verdict (handleSave s)), Hn, He.
  rewrite (handleSave_verdict s).
  by destruct (saveVerdict (nodes s) (edges s)).
Qed.

Lemma string_length_app (a b : string) :
  String.length (a +:+ b) = (String.length a + String.length b)%nat.
Proof.
  induction a as [|c a IH]; [done |].
  rewrite string_app_cons. simpl. by rewrite IH.
Qed.

(** The two error messages of a save are never the same text. *)
Lemma disconnectedMessage_not_noRoot (n : nat) :
  disconnectedMessage n ≠ noRootMessage.
Proof.
  intros Heq. apply (f_equal String.length) in Heq.
  unfold disconnectedMessage in Heq. rewrite !string_length_app in Heq.
  vm_compute (String.length "Cannot save Flow: ") in Heq.
  vm_compute (String.length " node(s) are not connected to the main flow.")
    in Heq.
  vm_compute (String.length noRootMessage) in Heq. lia.
Qed.

(** The root that [handleSave] starts from is one of the stored nodes and
    is always visited: it is never counted. *)
Lemma disconnectedNodes_length (rootNode : string) (nds : list Node.t)
    (eds : list Edge.t) :
  findRoot nds eds = Some rootNode →
  (length (disconnectedNodes rootNode nds eds) < length nds)%nat.
Proof.
  intros Hroot. unfold disconnectedNodes.
  rewrite <- (length_map Node.id nds).
  apply (length_filter_lt _ _ rootNode).
  - apply list_elem_of_In. unfold findRoot in Hroot.
    by apply find_some in Hroot as [Hin _].
  - intros Hout. apply Hout, visitedFrom_reachable. apply rtc_refl.
Qed.

(** X6: a save always ends in one of three ways.  Either the error is
    cleared and the success message is set; or the error is the "no root"
    message; or the error is the message that counts the disconnected nodes,
    and the number it gives is at least 1 and below the number of stored
    nodes.  In the two failures the success message keeps the value it had,
    so that an older success message can stay next to the new error; and the
    two error messages are never the same text. *)
Theorem handleSave_outcomes (s : FlowState) :
  ((error (handleSave s) = None
    ∧ successMessage (handleSave s) = Some savedMessage)
   ∨ (error (handleSave s) = Some noRootMessage
      ∧ successMessage (handleSave s) = successMessage s
      ∧ (2 ≤ length (nodes s))%nat)
   ∨ (∃ n, (1 ≤ n < length (nodes s))%nat
           ∧ error (handleSave s) = Some (disconnectedMessage n)
           ∧ successMessage (handleSave s) = successMessage s))
  ∧ ∀ n, disconnectedMessage n ≠ noRootMessage.
Proof.
  split; [| apply disconnectedMessage_not_noRoot].
  rewrite handleSave_verdict. unfold saveVerdict.
  case_bool_decide as Hlen; [by left |].
  destruct (findRoot (nodes s) (edges s)) as [rootNode|] eqn:Hroot;
    [| right; left; simpl; split_and!; [done | done | lia]].
  case_decide; [right; left; simpl; split_and!; [done | done | lia] |].
  case_bool_decide as Hdis; [| by left].
  right. right. eexists. split; [| by split].
  split; [lia |]. by apply disconnectedNodes_length.
Qed.

(** ** When a save succeeds *)

Lemma saveVerdict_success (nds : list Node.t) (eds : list Edge.t) :
  (2 ≤ length nds)%nat →
  saveVerdict nds eds = None
  ↔ ∃ rootNode, findRoot nds eds = Some rootNode ∧ rootNode ≠ ""
                ∧ disconnectedNodes rootNode nds eds = [].
Proof.
  intros Hlen. unfold saveVerdict. rewrite bool_decide_eq_false_2 by lia.
  split.
  - destruct (findRoot nds eds) as [rootNode|]; [| done].
    case_decide; [done |]. case_bool_decide as Hdis; [done |]. intros _.
    exists rootNode. split_and!; [done..|].
    destruct (disconnectedNodes rootNode nds eds); [done | simpl in Hdis; lia].
  - intros (rootNode & -> & Hne & Hdis).
    rewrite decide_False by done. by rewrite Hdis.
Qed.

(** When nothing is disconnected the first root candidate is the only one. *)
Lemma single_root (nds : list Node.t) (eds : list Edge.t) (rootNode : string) :
  NoDup (map Node.id nds) → findRoot nds eds = Some rootNode →
  disconnectedNodes rootNode nds eds = [] →
  rootCandidates nds eds = [rootNode].
Proof.
  intros Hnd Hroot Hdis. rewrite findRoot_head in Hroot.
  assert (NoDup (rootCandidates nds eds)) as Hnd'
    by (by apply NoDup_filter).
  destruct (rootCandidates nds eds) as [|r [|c rest]] eqn:Hcands;
    simplify_eq/=; [done |]. exfalso.
  apply NoDup_cons in Hnd' as [Hfresh _].
  assert (c ∈ rootCandidates nds eds) as Hc
    by (rewrite Hcands; right; left).
  apply rootCandidates_elem in Hc as [Hcand Hstore].
  assert (c ∈ disconnectedNodes rootNode nds eds) as Hin.
  { apply disconnectedNodes_elem. split; [done |].
    apply rootCandidate_unreachable; [done |].
    intros ->. apply Hfresh. left. }
  rewrite Hdis in Hin. by apply not_elem_of_nil in Hin.
Qed.

(** X7: in a store of two nodes or more whose identities are pairwise
    distinct and not empty, as they are after every session, a save succeeds
    exactly when there is one root candidate and every stored node is
    reachable from it. *)
Theorem handleSave_success_iff (s : FlowState) :
  (2 ≤ length (nodes s))%nat →
  NoDup (map Node.id (nodes s)) →
  "" ∉ map Node.id (nodes s) →
  error (handleSave s) = None
  ↔ ∃ rootNode,
      rootCandidates (nodes s) (edges s) = [rootNode]
      ∧ ∀ id, id ∈ map Node.id (nodes s) → reachable (edges s) rootNode id.
Proof.
  intros Hlen Hnd Hids. rewrite handleSave_error, saveVerdict_success by done.
  split.
  - intros (rootNode & Hroot & Hne & Hdis). exists rootNode.
    split; [by apply single_root |].
    intros id Hid.
    destruct (decide (id ∈ visitedFrom rootNode (edges s))) as [Hv | Hv];
      [by apply visitedFrom_reachable |].
    assert (id ∈ disconnectedNodes rootNode (nodes s) (edges s)) as Hin
      by (by apply list_elem_of_filter).
    rewrite Hdis in Hin. by apply not_elem_of_nil in Hin.
  - intros (rootNode & Hcands & Hall).
    assert (findRoot (nodes s) (edges s) = Some rootNode) as Hroot
      by (by rewrite findRoot_head, Hcands).
    exists rootNode. split_and!; [done | |].
    + intros ->. apply Hids, list_elem_of_In.
      unfold findRoot in Hroot. by apply find_some in Hroot as [Hin _].
    + destruct (disconnectedNodes rootNode (nodes s) (edges s))
        as [|id rest] eqn:Hdis; [done | exfalso].
      assert (id ∈ disconnectedNodes rootNode (nodes s) (edges s)) as Hin
        by (rewrite Hdis; left).
      apply disconnectedNodes_elem in Hin as [Hid Hun]. by apply Hun, Hall.
Qed.

Lemma handleSave_success_iff_witness :
  error (handleSave scenarioA) = None
  ↔ ∃ rootNode,
      rootCandidates (nodes scenarioA) (edges scenarioA) = [rootNode]
      ∧ ∀ id, id ∈ map Node.id (nodes scenarioA) →
              reachable (edges scenarioA) rootNode id.
Proof.
  apply (handleSave_success_iff scenarioA).
  - simpl. lia.
  - by apply (bool_decide_unpack _).
  - by apply (bool_decide_unpack _).
Defined.

(** X8: in a store of two nodes or more in which no identity is empty, the
    error of a save is the "no root" message exactly when there is no root
    candidate, that is when every stored node is the target of an edge. *)
Theorem handleSave_no_root_iff (s : FlowState) :
  (2 ≤ length (nodes s))%nat →
  "" ∉ map Node.id (nodes s) →
  error (handleSave s) = Some noRootMessage
  ↔ rootCandidates (nodes s) (edges s) = [].
Proof.
  intros Hlen Hids. rewrite handleSave_error. unfold saveVerdict.
  rewrite bool_decide_eq_false_2 by lia. rewrite <- head_None, <- findRoot_head.
  destruct (findRoot (nodes s) (edges s)) as [rootNode|] eqn:Hroot; [| done].
  split; [| done]. case_decide as Hempty.
  - exfalso. subst rootNode. apply Hids, list_elem_of_In.
    unfold findRoot in Hroot. by apply find_some in Hroot as [Hin _].
  - case_bool_decide; [| done]. intros Heq. apply (inj Some) in Heq.
    by apply disconnectedMessage_not_noRoot in Heq.
Qed.

Lemma handleSave_no_root_iff_witness :
  error (handleSave scenarioC) = Some noRootMessage
  ↔ rootCandidates (nodes scenarioC) (edges scenarioC) = [].
Proof.
  apply (handleSave_no_root_iff scenarioC); [simpl; lia |].
  by apply (bool_decide_unpack _).
Defined.

(** ** [validateFlow] against [handleSave] *)

Lemma validateFlow_rootCandidates (nds : list Node.t) (eds : list Edge.t) :
  validateFlow nds eds
  = bool_decide (length (rootCandidates nds eds) ≤ 1)%nat.
Proof.
  unfold validateFlow, rootCandidates, rootCandidate.
  apply bool_decide_ext.
  assert (length (filter (λ n, Node.id n ∉
            (list_to_set (map Edge.target eds) : gset string)) nds)
          = length (filter (λ id, id ∉ map Edge.target eds)
                      (map Node.id nds))) as ->; [| done].
  induction nds as [|n nds IH]; [done |]. simpl.
  rewrite !filter_cons.
  destruct (decide (Node.id n ∉ map Edge.target eds)) as [Hn | Hn].
  - rewrite decide_True by (by rewrite elem_of_list_to_set). simpl.
    by rewrite IH.
  - rewrite decide_False by (by rewrite elem_of_list_to_set). done.
Qed.

(** X9: when the identities of the store are pairwise distinct, every store
    that [handleSave] accepts is accepted by [validateFlow] too.  The
    converse fails: [validateFlow] accepts the cycle of scenario C. *)
Theorem handleSave_success_validateFlow (s : FlowState) :
  NoDup (map Node.id (nodes s)) →
  error (handleSave s) = None →
  validateFlow (nodes s) (edges s) = true.
Proof.
  intros Hnd Hok. rewrite validateFlow_rootCandidates.
  apply bool_decide_eq_true.
  destruct (decide (length (nodes s) ≤ 1)%nat) as [Hlen | Hlen].
  - unfold rootCandidates.
    pose proof (length_filter (rootCandidate (edges s))
                  (map Node.id (nodes s))) as Hle.
    rewrite length_map in Hle. lia.
  - rewrite handleSave_error in Hok.
    apply saveVerdict_success in Hok as (rootNode & Hroot & _ & Hdis);
      [| lia].
    by rewrite (single_root _ _ rootNode).
Qed.

Lemma handleSave_success_validateFlow_witness :
  validateFlow (nodes scenarioA) (edges scenarioA) = true.
Proof.
  apply (handleSave_success_validateFlow scenarioA).
  - by apply (bool_decide_unpack _).
  - by vm_compute.
Defined.

Lemma filter_length_mono {A} (P Q : A → Prop) `{!∀ x, Decision (P x)}
    `{!∀ x, Decision (Q x)} (l1 l2 : list A) :
  (∀ x, P x → Q x) → l1 `sublist_of` l2 →
  (length (filter P l1) ≤ length (filter Q l2))%nat.
Proof.
  intros HPQ Hsub. induction Hsub as [|x l1 l2 _ IH|x l1 l2 _ IH].
  - done.
  - rewrite !filter_cons. destruct (decide (P x)) as [HP | HP].
    + rewrite decide_True by auto. simpl. lia.
    + case_decide; simpl; lia.
  - rewrite (filter_cons Q). case_decide; simpl; lia.
Qed.

(** X10: [validateFlow] is monotone: once it is true it stays true when
    nodes are taken out of the list and when the edge list is replaced by
    one that has every target of the old one, for instance by adding
    edges. *)
Theorem validateFlow_monotone (nds nds' : list Node.t) (eds eds' : list Edge.t) :
  nds' `sublist_of` nds →
  (∀ id, id ∈ map Edge.target eds → id ∈ map Edge.target eds') →
  validateFlow nds eds = true →
  validateFlow nds' eds' = true.
Proof.
  intros Hsub Htargets Hok. unfold validateFlow in *.
  apply bool_decide_eq_true in Hok. apply bool_decide_eq_true.
  etrans; [| exact Hok]. apply filter_length_mono; [| done].
  intros n Hn Hin. apply Hn. rewrite elem_of_list_to_set in *. auto.
Qed.

Lemma validateFlow_monotone_witness :
  validateFlow (nodes prunedA) (edges prunedA) = true.
Proof.
  apply (validateFlow_monotone (nodes scenarioA) (nodes prunedA)
           (edges scenarioA) (edges prunedA)).
  - simpl. apply sublist_skip, sublist_cons, sublist_skip, sublist_nil.
  - simpl. intros id Hid.
    apply elem_of_cons in Hid as [-> | Hid]; [left |].
    apply elem_of_cons in Hid as [-> | Hid]; [right; left |].
    by apply not_elem_of_nil in Hid.
  - by vm_compute.
Defined.

(** ** What a save depends on *)

Lemma edgeStep_endpoints (eds : list Edge.t) (a b : string) :
  edgeStep eds a b ↔ (a, b) ∈ map endpoints eds.
Proof.
  unfold edgeStep. rewrite list_elem_of_fmap. split.
  - intros (e & He & <- & <-). by exists e.
  - intros (e & [= -> ->] & He). by exists e.
Qed.

Lemma reachable_endpoints (eds1 eds2 : list Edge.t) (r x : string) :
  (∀ p, p ∈ map endpoints eds1 → p ∈ map endpoints eds2) →
  reachable eds1 r x → reachable eds2 r x.
Proof.
  intros Hsub. apply rtc_subrel. intros a b.
  rewrite !edgeStep_endpoints. apply Hsub.
Qed.

Lemma target_endpoints (eds : list Edge.t) (id : string) :
  id ∈ map Edge.target eds ↔ ∃ a, (a, id) ∈ map endpoints eds.
Proof.
  rewrite list_elem_of_fmap. split.
  - intros (e & -> & He). exists (Edge.source e).
    apply list_elem_of_fmap. by exists e.
  - intros (a & Ha). apply list_elem_of_fmap in Ha as (e & [= -> ->] & He).
    by exists e.
Qed.

Lemma find_pointwise {A} (p q : A → bool) (l : list A) :
  (∀ x, p x = q x) → find p l = find q l.
Proof.
  intros Hpq. induction l as [|x l IH]; [done |]. simpl.
  by rewrite Hpq, IH.
Qed.

Lemma saveVerdict_endpoints (nds1 nds2 : list Node.t)
    (eds1 eds2 : list Edge.t) :
  map Node.id nds1 = map Node.id nds2 →
  (∀ p, p ∈ map endpoints eds1 ↔ p ∈ map endpoints eds2) →
  saveVerdict nds1 eds1 = saveVerdict nds2 eds2.
Proof.
  intros Hids Hends.
  assert (length nds1 = length nds2) as Hlen
    by (by rewrite <- (length_map Node.id nds1), Hids, length_map).
  assert (∀ id, id ∈ map Edge.target eds1 ↔ id ∈ map Edge.target eds2)
    as Htargets.
  { intros id. rewrite !target_endpoints. by setoid_rewrite Hends. }
  assert (findRoot nds1 eds1 = findRoot nds2 eds2) as Hroot.
  { unfold findRoot. rewrite Hids. apply find_pointwise. intros id.
    f_equal. apply bool_decide_ext, Htargets. }
  assert (∀ r, disconnectedNodes r nds1 eds1 = disconnectedNodes r nds2 eds2)
    as Hdis.
  { intros r. unfold disconnectedNodes. rewrite Hids.
    apply list_filter_iff. intros id.
    rewrite !visitedFrom_reachable.
    split; intros Hun Hre; apply Hun;
      (eapply reachable_endpoints; [| exact Hre]); intros p; apply Hends. }
  unfold saveVerdict. rewrite Hlen, Hroot.
  destruct (findRoot nds2 eds2) as [r|]; [| done]. by rewrite Hdis.
Qed.

(** X11: the error that a save reports depends on the store only through
    the list of node identities and the set of edge endpoints.  Labels,
    types, positions, levels, the selection, the messages, the order of the
    edges and edges stored twice never change it; so an edit of a label or a
    click before the save makes no difference. *)
Theorem handleSave_depends_on_shape (s1 s2 : FlowState) :
  map Node.id (nodes s1) = map Node.id (nodes s2) →
  (∀ p, p ∈ map endpoints (edges s1) ↔ p ∈ map endpoints (edges s2)) →
  error (handleSave s1) = error (handleSave s2)
  ∧ (∀ label, error (handleSave (updateNodeLabel label s1))
              = error (handleSave s2))
  ∧ (∀ node, error (handleSave (onNodeClick node s1))
             = error (handleSave s2)).
Proof.
  intros Hids Hends. rewrite !handleSave_error. split_and!.
  - by apply saveVerdict_endpoints.
  - intros label. rewrite handleSave_error.
    apply saveVerdict_endpoints; [| done]. simpl.
    rewrite <- Hids, map_map. apply map_ext. intros n. by case_decide.
  - intros node. rewrite handleSave_error. by apply saveVerdict_endpoints.
Qed.

Lemma handleSave_depends_on_shape_witness :
  error (handleSave shuffledA) = error (handleSave scenarioA)
  ∧ (∀ label, error (handleSave (updateNodeLabel label shuffledA))
              = error (handleSave scenarioA))
  ∧ (∀ node, error (handleSave (onNodeClick node shuffledA))
             = error (handleSave scenarioA)).
Proof.
  apply (handleSave_depends_on_shape shuffledA scenarioA); [done |].
  intros p. simpl. rewrite !elem_of_cons. tauto.
Defined.

(** ** Store order is creation order *)

Lemma levelsSorted_filter (P : Node.t → Prop) `{!∀ n, Decision (P n)}
    (nds : list Node.t) :
  levelsSorted nds → levelsSorted (filter P nds).
Proof.
  unfold levelsSorted. induction 1 as [|n nds _ IH Hall]; [constructor |].
  rewrite filter_cons. case_decide; [| done].
  constructor; [done | by apply Forall_filter_keep].
Qed.

Lemma levelsSorted_add (n : Node.t) (s : FlowState) :
  StoreInv s → nodeLevel n = level s →
  levelsSorted (nodes s) → levelsSorted (nodes s ++ [n]).
Proof.
  intros [_ Hids _ _] Hn Hsorted. apply StronglySorted_app_2; [| done |].
  - intros x1 x2 Hx1 Hx2. apply list_elem_of_singleton in Hx2 as ->.
    rewrite Forall_forall in Hids. destruct (Hids x1 Hx1) as [_ Hr]. lia.
  - repeat constructor.
Qed.

Lemma levelsSorted_step (s : FlowState) (op : Op) :
  StoreInv s →
  levelsSorted (nodes s) ∧ Z.of_nat (length (nodes s)) < level s →
  levelsSorted (nodes (step s op))
  ∧ Z.of_nat (length (nodes (step s op))) < level (step s op).
Proof.
  intros Hinv [Hsorted Hlen]. destruct op; simpl; try done.
  - split; [by apply levelsSorted_add |]. rewrite length_app. simpl. lia.
  - unfold onDrop. case_decide; [done |]. simpl.
    split; [by apply levelsSorted_add |]. rewrite length_app. simpl. lia.
  - unfold onConnect. by destruct (negb _).
  - split; [| by rewrite length_map].
    apply (StronglySorted_fmap _ (λ a b, nodeLevel a < nodeLevel b));
      [| done].
    intros x y Hxy. by repeat case_decide.
  - split; [constructor | simpl; lia].
  - destruct (handleSave_stores s) as (-> & _ & -> & _). done.
  - split; [by apply levelsSorted_filter |].
    pose proof (length_filter (λ n, Node.id n ≠ id) (nodes s)). lia.
Qed.

(** X12: after every session the store lists the nodes in the order in
    which they were made: their levels grow strictly along the store, each
    level is at least 1 and below the level counter, the identity of a node
    ends with its own level, and the counter is above the number of stored
    nodes. *)
Theorem run_store_order (ops : list Op) :
  levelsSorted (nodes (run ops))
  ∧ Z.of_nat (length (nodes (run ops))) < level (run ops)
  ∧ Forall (λ n, 1 ≤ nodeLevel n < level (run ops)
                 ∧ ∃ now, Node.id n = nodeId now (nodeLevel n))
      (nodes (run ops)).
Proof.
  assert (levelsSorted (nodes (run ops))
          ∧ Z.of_nat (length (nodes (run ops))) < level (run ops))
    as [Hsorted Hlen].
  { unfold run. induction ops as [|op ops IH] using rev_ind.
    - split; [constructor | simpl; lia].
    - rewrite foldl_app. simpl.
      apply levelsSorted_step; [apply StoreInv_run | exact IH]. }
  split_and!; [done..|].
  destruct (StoreInv_run ops) as [_ Hids _ _].
  eapply Forall_impl; [exact Hids |]. simpl. tauto.
Qed.

(** ** Linear flows *)

Lemma saveVerdict_all_reached (nds : list Node.t) (eds : list Edge.t)
    (rootNode : string) :
  rootNode ≠ "" → findRoot nds eds = Some rootNode →
  (∀ id, id ∈ map Node.id nds → reachable eds rootNode id) →
  saveVerdict nds eds = None.
Proof.
  intros Hne Hroot Hall. unfold saveVerdict.
  case_bool_decide; [done |]. rewrite Hroot, decide_False by done.
  destruct (disconnectedNodes rootNode nds eds) as [|id rest] eqn:Hdis;
    [done | exfalso].
  assert (id ∈ disconnectedNodes rootNode nds eds) as Hin
    by (rewrite Hdis; left).
  apply disconnectedNodes_elem in Hin as [Hid Hun]. by apply Hun, Hall.
Qed.

Lemma consecutive_reachable (eds : list Edge.t) (first : string)
    (rest : list string) (i : nat) (x : string) :
  map endpoints eds = consecutive (first :: rest) →
  (first :: rest) !! i = Some x → reachable eds first x.
Proof.
  intros Hends. revert x. induction i as [|i IH]; intros x Hx.
  - simpl in Hx. simplify_eq. apply rtc_refl.
  - destruct (lookup_lt_is_Some_2 (first :: rest) i) as [y Hy].
    { apply lookup_lt_Some in Hx. lia. }
    eapply rtc_r; [by apply IH |].
    apply edgeStep_endpoints. rewrite Hends. unfold consecutive.
    apply (list_elem_of_lookup_2 _ i).
    rewrite lookup_zip_with, Hy. simpl. simpl in Hx. by rewrite Hx.
Qed.

(** X13: a linear flow is always saved.  When the identities of the store
    are pairwise distinct and not empty and the edges join each node of the
    store to the next one, and nothing else, [handleSave] clears the error
    and sets the success message, whatever the number of nodes. *)
Theorem handleSave_linear_flow (s : FlowState) :
  NoDup (map Node.id (nodes s)) →
  "" ∉ map Node.id (nodes s) →
  map endpoints (edges s) = consecutive (map Node.id (nodes s)) →
  error (handleSave s) = None
  ∧ successMessage (handleSave s) = Some savedMessage.
Proof.
  intros Hnd Hids Hends.
  assert (saveVerdict (nodes s) (edges s) = None) as Hok;
    [| by rewrite handleSave_verdict, Hok].
  destruct (map Node.id (nodes s)) as [|first rest] eqn:Hmap.
  { unfold saveVerdict. rewrite bool_decide_eq_true_2; [done |].
    rewrite <- (length_map Node.id), Hmap. simpl. lia. }
  assert (map Edge.target (edges s) = rest) as Htargets.
  { assert (map Edge.target (edges s) = map snd (map endpoints (edges s)))
      as -> by (by rewrite map_map).
    rewrite Hends. unfold consecutive. simpl.
    apply (snd_zip (first :: rest) rest). simpl. lia. }
  apply NoDup_cons in Hnd as [Hfresh _].
  apply (saveVerdict_all_reached _ _ first).
  - intros ->. apply Hids. left.
  - unfold findRoot. rewrite Hmap, Htargets. simpl.
    by rewrite bool_decide_eq_false_2.
  - intros id Hid. rewrite Hmap in Hid.
    apply list_elem_of_lookup_1 in Hid as [i Hi].
    by apply (consecutive_reachable _ first rest i).
Qed.

Lemma handleSave_linear_flow_witness :
  error (handleSave scenarioA) = None
  ∧ successMessage (handleSave scenarioA) = Some savedMessage.
Proof.
  apply (handleSave_linear_flow scenarioA).
  - by apply (bool_decide_unpack _).
  - by apply (bool_decide_unpack _).
  - done.
Defined.

(** ** Reset starts a fresh session *)

(** X14: a reset forgets the session before it: what follows behaves as a
    session of its own, level counter and identities included. *)
Theorem run_after_reset (before after : list Op) :
  run (before ++ [Reset] ++ after) = run after.
Proof.
  unfold run. rewrite !foldl_app. simpl.
  by replace (handleReset (foldl step initialState before))
    with initialState.
Qed.
